(** * cpp_csv: the CSV reader and validator of Byteneko

    A shallow embedding of [src/tools/cpp_csv/cpp_csv.cpp] and the
    properties of its tokenizer, file reader and row validator.

    - [std::string] is a sequence of bytes: [list ascii].
    - [double] is IEEE binary64: the primitive [float].
    - [std::unordered_map] / [py::dict] are [gmap]s, [std::unordered_set]
      is a [gset]; [std::vector] is a [list] and [push_back] appends.
    - the error vector that [validate_value] receives by reference is
      threaded through explicitly.
    - a thrown exception is the [Throw] result of [except].
    - [std::stod] and the stream insertion of a [double] belong to the C++
      library, not to this repository: the validator is parameterised by
      them (Section variables), and a reference instance is given to run
      it on concrete cells.
    - [py::str] of a [std::string] keeps its bytes (the text is taken to
      be valid UTF-8), [py::cast] of a [double] is a Python float.
    - the map [column_indices] that [read_and_validate_csv] builds is never
      read and is left out. *)

From Stdlib Require Import Ascii String ZArith Floats Lia.
From stdpp Require Import gmap strings list sorting.

Open Scope Z_scope.
Open Scope nat_scope.

Abbreviation str := (list ascii).

(** String literals are written [lit "..."]. *)
Definition lit (s : string) : str := list_ascii_of_string s.

Definition dquote : ascii := "034"%char.
Definition LF : ascii := "010"%char.
Definition CR : ascii := "013"%char.
Definition comma : ascii := ","%char.

(** A C++ exception escaping the function. *)
Inductive except (A : Type) : Type :=
  | Ok (a : A)
  | Throw (what : str).
Arguments Ok {A} a.
Arguments Throw {A} what.

(** ** Anonymous namespace: tokenizer and file reader *)

(** The [for] loop of [parse_csv_line]: [line] is the part of the line from
    index [i] on, so that [line[i + 1]] is the head of the tail. *)
Fixpoint parse_csv_loop (delimiter : ascii) (line : str)
    (in_quotes : bool) (cell : str) (row : list str) : list str :=
  match line with
  | [] => row ++ [cell]
  | c :: rest =>
      if Ascii.eqb c dquote then
        match rest with
        | c' :: rest' =>
            if in_quotes && Ascii.eqb c' dquote
            then parse_csv_loop delimiter rest' in_quotes (cell ++ [dquote]) row
            else parse_csv_loop delimiter rest (negb in_quotes) cell row
        | [] => parse_csv_loop delimiter rest (negb in_quotes) cell row
        end
      else if Ascii.eqb c delimiter && negb in_quotes then
        parse_csv_loop delimiter rest in_quotes [] (row ++ [cell])
      else
        parse_csv_loop delimiter rest in_quotes (cell ++ [c]) row
  end.

Definition parse_csv_line (line : str) (delimiter : ascii) : list str :=
  parse_csv_loop delimiter line false [] [].

(** [std::getline] called until it fails: the lines of [content], split
    at [LF]; at the end of the stream a line is produced only if at least
    one character was extracted. [line] is the line being accumulated. *)
Fixpoint getlines (content : str) (line : str) : list str :=
  match content with
  | [] => match line with [] => [] | _ => [line] end
  | c :: rest =>
      if Ascii.eqb c LF then line :: getlines rest []
      else getlines rest (line ++ [c])
  end.

(** [if (!line.empty() && line.back() == '\r') line.pop_back();] *)
Definition strip_cr (line : str) : str :=
  match last line with
  | Some c => if Ascii.eqb c CR then removelast line else line
  | None => line
  end.

(** The body of the [while (std::getline(file, line))] loop. *)
Fixpoint read_lines (delimiter : ascii) (lines : list str)
    (result : list (list str)) : list (list str) :=
  match lines with
  | [] => result
  | line :: more =>
      let line := strip_cr line in
      match line with
      | [] => read_lines delimiter more result
      | _ => read_lines delimiter more (result ++ [parse_csv_line line delimiter])
      end
  end.

(** The files that can be opened, with their bytes. *)
Abbreviation filesystem := (str → option str).

Definition read_csv_impl (fs : filesystem) (filename : str) (delimiter : ascii)
    : except (list (list str)) :=
  match fs filename with
  | None => Throw (lit "No se pudo abrir el archivo CSV: " ++ filename)
  | Some content => Ok (read_lines delimiter (getlines content []) [])
  end.

(** ** Namespace [validation] *)

Module validation.

Inductive FieldType : Set := TEXT | NUMBER | SCALE | SINGLE.

Record ValidationRule : Type := {
  type : FieldType;
  min_value : float;
  max_value : float;
  valid_options : gset str
}.

Record ValidationError : Type := {
  row_index : nat;
  column : str;
  value : str;
  message : str
}.

(** [std::isspace] in the "C" locale. *)
Definition isspace (c : ascii) : bool :=
  let n := nat_of_ascii c in
  (n =? 32) || ((9 <=? n) && (n <=? 13)).

(** The forward loop of [trim]: the offset of [start] from [begin()]. *)
Fixpoint trim_start (s : str) : nat :=
  match s with
  | c :: s' => if isspace c then S (trim_start s') else 0
  | [] => 0
  end.

Definition char_at (s : str) (i : Z) : ascii :=
  nth (Z.to_nat i) s "000"%char.

(** The [do { --end; } while (distance(start, end) > 0 && isspace( *end))]
    loop of [trim]. Iterators are offsets from [begin()], in [Z] since the
    first decrement is unconditional. [fuel] bounds the iterations: each
    one lowers [end_], and the loop is left before [length s + 1] of them
    ([trim_back_fuel]). *)
Fixpoint trim_back (s : str) (start : Z) (fuel : nat) (end_ : Z) : Z :=
  match fuel with
  | O => end_
  | S fuel =>
      let end_ := (end_ - 1)%Z in
      if (0 <? end_ - start)%Z && isspace (char_at s end_)
      then trim_back s start fuel end_
      else end_
  end.

(** The value of [end] when the backward loop is left. *)
Definition trim_end (s : str) : Z :=
  trim_back s (Z.of_nat (trim_start s)) (S (length s)) (Z.of_nat (length s)).

(** [std::string(first, last)]: the characters at offsets [first] to
    [last - 1]. *)
Definition substring (s : str) (first last : Z) : str :=
  take (Z.to_nat (last - first)) (drop (Z.to_nat first) s).

Definition trim (s : str) : str :=
  substring s (Z.of_nat (trim_start s)) (trim_end s + 1).

(** [::tolower] in the "C" locale. *)
Definition tolower (c : ascii) : ascii :=
  let n := nat_of_ascii c in
  if (65 <=? n) && (n <=? 90) then ascii_of_nat (n + 32) else c.

Definition str_eqb (a b : str) : bool := bool_decide (a = b).

Definition parse_field_type (type_str : str) : FieldType :=
  let lower := map tolower type_str in
  if str_eqb lower (lit "number") then NUMBER
  else if str_eqb lower (lit "scale") then SCALE
  else if str_eqb lower (lit "single") then SINGLE
  else TEXT.

(** The description of one column in the caller's schema: a dict with
    the optional keys "type", "min", "max" and "options", already
    converted by [py::str] and [py::cast]. *)
Record column_rules : Type := {
  cr_type : option str;
  cr_min : option float;
  cr_max : option float;
  cr_options : option (list str)
}.

Definition parse_rule (cr : column_rules) : ValidationRule :=
  {| type := match cr_type cr with
             | Some type_str => parse_field_type type_str
             | None => TEXT
             end;
     min_value := default 0%float (cr_min cr);
     max_value := default 10%float (cr_max cr);
     valid_options :=
       match cr_options cr with
       | Some options => foldl (λ set opt, {[ trim opt ]} ∪ set) ∅ options
       | None => ∅
       end |}.

(** The schema is a dict: its items in iteration order. *)
Definition parse_schema (schema : list (str * column_rules))
    : gmap str ValidationRule :=
  foldl (λ rules item, <[ item.1 := parse_rule item.2 ]> rules) ∅ schema.

(** What [read_and_validate_csv] puts in a row dict. *)
Inductive py_object : Type :=
  | py_none
  | py_float (d : float)
  | py_str (s : str).

Definition msg_number : str := lit "No es un número válido".
Definition msg_scale : str := lit "No es un número válido para escala".
Definition msg_option : str := lit "Opción no válida".

Section with_library.
(** [std::stod(s, &pos)]: [Some (num, pos)] when it returns, [None] when
    it throws ([invalid_argument] or [out_of_range]). *)
Variable stod : str → option (float * nat).
(** [oss << d] for a [double] on a default-constructed stream. *)
Variable put_double : float → str.

Definition msg_range (rule : ValidationRule) : str :=
  lit "Valor fuera de rango [" ++ put_double (min_value rule) ++
  lit ", " ++ put_double (max_value rule) ++ lit "]".

Definition validate_value (value : str) (rule : ValidationRule)
    (row_idx : nat) (column : str) (errors : list ValidationError)
    : py_object * list ValidationError :=
  let trimmed := trim value in
  let error message :=
    errors ++ [ {| row_index := row_idx; column := column;
                   value := value; message := message |} ] in
  match trimmed with
  | [] => (py_none, errors)
  | _ =>
    match type rule with
    | NUMBER =>
        match stod trimmed with
        | Some (num, pos) =>
            if negb (pos =? length trimmed) then (py_none, error msg_number)
            else (py_float num, errors)
        | None => (py_none, error msg_number)
        end
    | SCALE =>
        match stod trimmed with
        | Some (num, pos) =>
            if negb (pos =? length trimmed) then (py_none, error msg_scale)
            else if (num <? min_value rule)%float || (max_value rule <? num)%float
            then (py_none, error (msg_range rule))
            else (py_float num, errors)
        | None => (py_none, error msg_scale)
        end
    | SINGLE =>
        if negb (bool_decide (valid_options rule = ∅))
           && negb (bool_decide (trimmed ∈ valid_options rule))
        then (py_none, error msg_option)
        else (py_str trimmed, errors)
    | TEXT => (py_str trimmed, errors)
    end
  end.
End with_library.

End validation.

(** ** The exported functions *)

Import validation.

Definition read_csv (fs : filesystem) (filename : str) (delimiter : ascii)
    : except (list (list str)) :=
  read_csv_impl fs filename delimiter.

Abbreviation py_dict := (gmap str py_object).

(** [for (j = from; j < to; ++j) body(j)] over an accumulator. *)
Definition for_range {A : Type} (from to : nat) (body : A → nat → A) (a : A) : A :=
  foldl body a (seq from (to - from)).

(** One iteration of the row loop of [read_csv_dicts]. *)
Definition dict_of_row (header row : list str) : py_dict :=
  let cols := length header `min` length row in
  let d := for_range 0 cols
             (λ d j, <[ header !!! j := py_str (row !!! j) ]> d) ∅ in
  if length row <? length header then
    for_range (length row) (length header)
      (λ d j, <[ header !!! j := py_str [] ]> d) d
  else d.

Definition read_csv_dicts (fs : filesystem) (filename : str) (delimiter : ascii)
    : except (list py_dict) :=
  match read_csv_impl fs filename delimiter with
  | Throw what => Throw what
  | Ok rows =>
      match rows with
      | [] => Ok []
      | header :: data_rows => Ok (map (dict_of_row header) data_rows)
      end
  end.

(** The dict returned by [read_and_validate_csv]; each error dict has the
    four fields of a [ValidationError]. *)
Record validated : Type := {
  data : list py_dict;
  errors : list ValidationError
}.

Section with_library.
Variable stod : str → option (float * nat).
Variable put_double : float → str.

(** The body of the column loop of [read_and_validate_csv]. *)
Definition validate_cell (rules : gmap str ValidationRule)
    (header row : list str) (i : nat)
    (st : py_dict * list ValidationError) (j : nat)
    : py_dict * list ValidationError :=
  let '(row_dict, errors) := st in
  let col_name := header !!! j in
  let cell_value := row !!! j in
  match rules !! col_name with
  | Some rule =>
      let '(validated, errors) :=
        validate_value stod put_double cell_value rule i col_name errors in
      (<[ col_name := validated ]> row_dict, errors)
  | None =>
      (<[ col_name := py_str (trim cell_value) ]> row_dict, errors)
  end.

(** One iteration of the row loop: the row dict of data row [i] and the
    error vector after it. *)
Definition validate_row (rules : gmap str ValidationRule)
    (header row : list str) (i : nat) (errors : list ValidationError)
    : py_dict * list ValidationError :=
  let cols := length header `min` length row in
  let '(row_dict, errors) :=
    for_range 0 cols (validate_cell rules header row i) (∅, errors) in
  let row_dict :=
    if length row <? length header then
      for_range (length row) (length header)
        (λ d j, <[ header !!! j := py_none ]> d) row_dict
    else row_dict in
  (row_dict, errors).

(** The row loop, from row [i] on; [rows] are the rows not yet visited. *)
Fixpoint validate_rows (rules : gmap str ValidationRule) (header : list str)
    (rows : list (list str)) (i : nat)
    (validated_data : list py_dict) (errors : list ValidationError)
    : list py_dict * list ValidationError :=
  match rows with
  | [] => (validated_data, errors)
  | row :: rest =>
      let '(row_dict, errors) := validate_row rules header row i errors in
      validate_rows rules header rest (S i) (validated_data ++ [row_dict]) errors
  end.

Definition read_and_validate_csv (fs : filesystem) (filename : str)
    (schema : list (str * column_rules)) (delimiter : ascii)
    : except validated :=
  match read_csv_impl fs filename delimiter with
  | Throw what => Throw what
  | Ok rows =>
      let rules := parse_schema schema in
      match rows with
      | [] => Ok {| data := []; errors := [] |}
      | header :: data_rows =>
          let '(validated_data, errors) :=
            validate_rows rules header data_rows 1 [] [] in
          Ok {| data := validated_data; errors := errors |}
      end
  end.
End with_library.

(** * Reference instances of the C++ library

    [std::stod] and [operator<<] for [double] as the C and C++ standards
    describe them, to run the validator on concrete cells. The properties
    below hold for every instance. *)

Module reference.

(** The value of a digit in base 16 (and so in base 10), if it is one. *)
Definition xdigit (c : ascii) : option Z :=
  let n := nat_of_ascii (tolower c) in
  if (48 <=? n) && (n <=? 57) then Some (Z.of_nat n - 48)%Z
  else if (97 <=? n) && (n <=? 102) then Some (Z.of_nat n - 87)%Z
  else None.

Definition digit (base : Z) (c : ascii) : option Z :=
  match xdigit c with
  | Some d => if (d <? base)%Z then Some d else None
  | None => None
  end.

(** The longest run of digits at the head of [s]: the number read after
    [acc], how many digits it has, and what follows. *)
Fixpoint digits (base : Z) (s : str) (acc : Z) (count : nat) : Z * nat * str :=
  match s with
  | c :: s' =>
      match digit base c with
      | Some d => digits base s' (base * acc + d)%Z (S count)
      | None => (acc, count, s)
      end
  | [] => (acc, count, s)
  end.

(** [s] starts with [word], whatever the case of its letters. *)
Fixpoint starts_with (word s : str) : bool :=
  match word, s with
  | [], _ => true
  | w :: word', c :: s' => Ascii.eqb w (tolower c) && starts_with word' s'
  | _ :: _, [] => false
  end.

(** The nearest double to [num / den] (ties to even), for [0 < num] and
    [0 < den]: a quotient of 64 bits or more with a sticky last bit is
    rounded by [binary_normalize]. *)
Definition nearest (neg : bool) (num den : Z) : spec_float :=
  let k := Z.max 0 (64 + Z.log2 den - Z.log2 num) in
  let q := (num * 2 ^ k / den)%Z in
  let sticky := if (num * 2 ^ k mod den =? 0)%Z then 0%Z else 1%Z in
  let m := (2 * q + sticky)%Z in
  binary_normalize prec emax (if neg then - m else m)%Z (- k - 1)%Z neg.

(** The double for [mant * base ^ exp], or nothing when it is out of
    range. *)
Definition scaled (neg : bool) (mant base exp : Z) : option float :=
  let sf :=
    if (mant =? 0)%Z then S754_zero neg
    else if (0 <=? exp)%Z then nearest neg (mant * base ^ exp) 1
    else nearest neg mant (base ^ (- exp)) in
  match sf with
  | S754_infinity _ => None
  | _ => Some (SF2Prim sf)
  end.

(** The exponent part [e], sign, digits: its value and length, zero when
    no digit follows. *)
Definition exponent (mark : ascii) (s : str) : Z * nat :=
  match s with
  | c :: s' =>
      if Ascii.eqb (tolower c) mark then
        let '(neg, signed, s'') :=
          match s' with
          | "-"%char :: s'' => (true, 1, s'')
          | "+"%char :: s'' => (false, 1, s'')
          | _ => (false, 0, s')
          end in
        let '(e, count, _) := digits 10 s'' 0 0 in
        if count =? 0 then (0%Z, 0)
        else ((if neg then - e else e)%Z, 1 + signed + count)
      else (0%Z, 0)
  | [] => (0%Z, 0)
  end.

(** A literal of the given base: digits with at most one point and at
    least one digit, then the exponent part. *)
Definition number (neg : bool) (base scale : Z) (mark : ascii) (s : str)
    : option (option float * nat) :=
  let '(int_part, int_count, rest) := digits base s 0 0 in
  let '(mant, frac_count, point, rest) :=
    match rest with
    | "."%char :: rest' =>
        let '(mant, frac_count, rest'') := digits base rest' int_part 0 in
        (mant, frac_count, 1, rest'')
    | _ => (int_part, 0, 0, rest)
    end in
  if int_count + frac_count =? 0 then None
  else
    let '(e, e_len) := exponent mark rest in
    Some (scaled neg mant (if (base =? 16)%Z then 2 else 10)
                 (e - scale * Z.of_nat frac_count)%Z,
          int_count + point + frac_count + e_len).

(** The characters of [nan(...)] between the parentheses. *)
Fixpoint nan_chars (s : str) (count : nat) : nat :=
  match s with
  | c :: s' =>
      if Ascii.eqb c ")"%char then S count
      else
        let n := nat_of_ascii (tolower c) in
        if ((48 <=? n) && (n <=? 57)) || ((97 <=? n) && (n <=? 122)) || (n =? 95)
        then nan_chars s' (S count)
        else 0
  | [] => 0
  end.

Fixpoint skip_spaces (s : str) (count : nat) : str * nat :=
  match s with
  | c :: s' => if isspace c then skip_spaces s' (S count) else (s, count)
  | [] => (s, count)
  end.

(** [std::stod] in the C locale, after the subject sequence of
    [strtod] in the C standard: white space, a sign, then a decimal
    literal, a hexadecimal literal, [inf], [infinity], [nan] or
    [nan(...)]. It throws when there is no such sequence, and when the
    value overflows. A value that underflows is returned rounded: the C
    standard leaves it to the implementation whether this is an error. *)
Definition stod (s : str) : option (float * nat) :=
  let '(s, spaces) := skip_spaces s 0 in
  let '(neg, signed, s) :=
    match s with
    | "-"%char :: s' => (true, 1, s')
    | "+"%char :: s' => (false, 1, s')
    | _ => (false, 0, s)
    end in
  let sign (d : float) := if neg then (- d)%float else d in
  let lead := spaces + signed in
  if starts_with (lit "infinity") s then Some (sign infinity, lead + 8)
  else if starts_with (lit "inf") s then Some (sign infinity, lead + 3)
  else if starts_with (lit "nan") s then
    match drop 3 s with
    | "("%char :: s' =>
        match nan_chars s' 0 with
        | 0 => Some (sign nan, lead + 3)
        | n => Some (sign nan, lead + 4 + n)
        end
    | _ => Some (sign nan, lead + 3)
    end
  else
    let hex :=
      if starts_with (lit "0x") s
      then number neg 16 4 "p"%char (drop 2 s) else None in
    match hex with
    | Some (Some d, len) => Some (d, lead + 2 + len)
    | Some (None, _) => None
    | None =>
        match number neg 10 1 "e"%char s with
        | Some (Some d, len) => Some (d, lead + len)
        | _ => None
        end
    end.

(** The decimal digits of [n], [width] of them. *)
Fixpoint decimal (width : nat) (n : Z) : str :=
  match width with
  | 0 => []
  | S width' =>
      decimal width' (n / 10)%Z ++ [ascii_of_nat (48 + Z.to_nat (n mod 10)%Z)]
  end.

Fixpoint strip_zeros (s : str) : str :=
  match s with
  | [] => []
  | c :: s' =>
      match strip_zeros s' with
      | [] => if Ascii.eqb c "0"%char then [] else [c]
      | t => c :: t
      end
  end.

(** [10 ^ x <= num / den], for [0 < den]. *)
Definition reaches (num den x : Z) : bool :=
  if (0 <=? x)%Z then (den * 10 ^ x <=? num)%Z
  else (den <=? num * 10 ^ (- x))%Z.

(** The largest [x] from [x] on with [10 ^ x <= num / den]. *)
Fixpoint decimal_exponent (fuel : nat) (num den x : Z) : Z :=
  match fuel with
  | 0 => x
  | S fuel' =>
      if reaches num den (x + 1) then decimal_exponent fuel' num den (x + 1)
      else x
  end.

Definition round_half_even (num den : Z) : Z :=
  let q := (num / den)%Z in
  let r := (num mod den)%Z in
  if (2 * r <? den)%Z then q
  else if (den <? 2 * r)%Z then (q + 1)%Z
  else if Z.even q then q else (q + 1)%Z.

(** The conversion [%g] of a positive [num / den]: six significant
    digits, rounded to nearest; the scientific style when the decimal
    exponent is below -4 or not below 6; no zeros at the end. *)
Definition general (num den : Z) : str :=
  let x0 := ((Z.log2 num - Z.log2 den) * 30103 / 100000 - 2)%Z in
  let x := decimal_exponent 6 num den x0 in
  let r :=
    if (0 <=? 5 - x)%Z then round_half_even (num * 10 ^ (5 - x)) den
    else round_half_even num (den * 10 ^ (x - 5)) in
  let '(r, x) := if (r =? 10 ^ 6)%Z then (10 ^ 5, x + 1)%Z else (r, x) in
  let fraction (digits : str) :=
    match strip_zeros digits with
    | [] => []
    | digits' => "."%char :: digits'
    end in
  if (x <? -4)%Z || (6 <=? x)%Z then
    decimal 1 (r / 10 ^ 5) ++ fraction (decimal 5 (r mod 10 ^ 5)) ++
    ["e"%char; if (x <? 0)%Z then "-"%char else "+"%char] ++
    decimal (if (Z.abs x <? 100)%Z then 2 else 3) (Z.abs x)
  else if (0 <=? x)%Z then
    decimal (Z.to_nat (x + 1)) (r / 10 ^ (5 - x)) ++
    fraction (decimal (Z.to_nat (5 - x)) (r mod 10 ^ (5 - x)))
  else
    "0"%char :: fraction (decimal (Z.to_nat (5 - x)) r).

(** [oss << d] on a stream with the default flags: [%g] with precision
    6; a NaN is written without its sign. *)
Definition put_double (d : float) : str :=
  match Prim2SF d with
  | S754_zero neg => if neg then lit "-0" else lit "0"
  | S754_infinity neg => if neg then lit "-inf" else lit "inf"
  | S754_nan => lit "nan"
  | S754_finite neg m e =>
      (if neg then ["-"%char] else []) ++
      (if (0 <=? e)%Z then general (Zpos m * 2 ^ e) 1
       else general (Zpos m) (2 ^ (- e)))
  end.
End reference.

(** * Vocabulary of the specification *)

(** ** Tokenizer *)

(** The value of [in_quotes] when each character of the line is read. The
    second quote of an escaped pair is read together with the first. *)
Fixpoint quote_flags (line : str) (in_quotes : bool) : list bool :=
  match line with
  | [] => []
  | c :: rest =>
      if Ascii.eqb c dquote then
        match rest with
        | c' :: rest' =>
            if in_quotes && Ascii.eqb c' dquote
            then in_quotes :: in_quotes :: quote_flags rest' in_quotes
            else in_quotes :: quote_flags rest (negb in_quotes)
        | [] => [in_quotes]
        end
      else in_quotes :: quote_flags rest in_quotes
  end.

(** The delimiters of the line that are read outside quotes. *)
Definition unquoted_delimiters (delimiter : ascii) (line : str) : nat :=
  length (filter (λ cf, cf.1 = delimiter ∧ cf.2 = false)
                 (zip line (quote_flags line false))).

(** The line ends in a delimiter that is read outside quotes. *)
Definition ends_in_unquoted_delimiter (delimiter : ascii) (line : str) : Prop :=
  last line = Some delimiter ∧ last (quote_flags line false) = Some false.

(** The cell holds neither the delimiter nor a double quote. *)
Definition plain_cell (delimiter : ascii) (cell : str) : Prop :=
  Forall (λ c, c ≠ delimiter ∧ c ≠ dquote) cell.

Global Instance plain_cell_dec delimiter cell : Decision (plain_cell delimiter cell).
Proof. unfold plain_cell. apply _. Defined.

(** The cells of a row joined by the delimiter. *)
Fixpoint join (delimiter : ascii) (cells : list str) : str :=
  match cells with
  | [] => []
  | [cell] => cell
  | cell :: cells => cell ++ delimiter :: join delimiter cells
  end.

(** ** File reader *)

(** What one physical line adds to the result: nothing when it is empty
    once a carriage return at its end is removed, its cells otherwise. *)
Definition row_of_line (delimiter : ascii) (line : str) : list (list str) :=
  match strip_cr line with
  | [] => []
  | stripped => [parse_csv_line stripped delimiter]
  end.

(** The bytes of a file whose lines all end in [eol]. *)
Definition unlines (eol : str) (lines : list str) : str :=
  flat_map (λ line, line ++ eol) lines.

(** A line as the specification means it: without a line feed, and not
    itself ending in a carriage return. *)
Definition line_body (line : str) : Prop :=
  (LF ∉ line) ∧ last line ≠ Some CR.

Global Instance line_body_dec line : Decision (line_body line).
Proof. unfold line_body. apply _. Defined.

(** ** Trimming *)

Definition spaces (ws : str) : Prop := Forall (λ c, isspace c = true) ws.

(** [core] neither starts nor ends with white space. *)
Definition no_outer_space (core : str) : Prop :=
  (∀ c, head core = Some c → isspace c = false) ∧
  (∀ c, last core = Some c → isspace c = false).

(** ** Validator *)

(** The error pushed for the cell [value] of column [col] in data row [i]. *)
Definition error_at (i : nat) (col value message : str) : ValidationError :=
  {| row_index := i; column := col; value := value; message := message |}.


(** The typed value of the cell at a column and the errors it records,
    for data row [i]. *)
Definition typed_cell (stod : str → option (float * nat))
    (put_double : float → str) (rules : gmap str ValidationRule)
    (i : nat) (col_name cell_value : str) : py_object * list ValidationError :=
  match rules !! col_name with
  | Some rule => validate_value stod put_double cell_value rule i col_name []
  | None => (py_str (trim cell_value), [])
  end.

(** The errors of data row [i], cell after cell. *)
Definition row_errors (stod : str → option (float * nat))
    (put_double : float → str) (rules : gmap str ValidationRule)
    (header : list str) (i : nat) (row : list str) : list ValidationError :=
  flat_map (λ j, (typed_cell stod put_double rules i (header !!! j) (row !!! j)).2)
           (seq 0 (length header `min` length row)).

(** The errors of the rows from data row [i] on, row after row. *)
Fixpoint table_errors (stod : str → option (float * nat))
    (put_double : float → str) (rules : gmap str ValidationRule)
    (header : list str) (rows : list (list str)) (i : nat)
    : list ValidationError :=
  match rows with
  | [] => []
  | row :: rest =>
      row_errors stod put_double rules header i row
      ++ table_errors stod put_double rules header rest (S i)
  end.

(** The dict of data row [i]. *)
Definition typed_row (stod : str → option (float * nat))
    (put_double : float → str) (rules : gmap str ValidationRule)
    (header : list str) (i : nat) (row : list str) : py_dict :=
  (validate_row stod put_double rules header row i []).1.

(** Cell [(i, j)] comes before cell [(i', j')] in the traversal: an
    earlier row, or the same row and an earlier column. *)
Definition cell_lt (p q : nat * nat) : Prop :=
  p.1 < q.1 ∨ (p.1 = q.1 ∧ p.2 < q.2).

(** The cells of the rows from row [i] on, in the order of the traversal. *)
Fixpoint cells_from (header : list str) (rows : list (list str)) (i : nat)
    : list (nat * nat) :=
  match rows with
  | [] => []
  | row :: rest =>
      map (λ j, (i, j)) (seq 0 (length header `min` length row))
      ++ cells_from header rest (S i)
  end.

(** [e] is an error of the cell at column [j] of data row [i]. *)
Definition error_of_cell (header : list str) (data_rows : list (list str))
    (e : ValidationError) (p : nat * nat) : Prop :=
  ∃ row, 1 ≤ p.1 ∧ data_rows !! (p.1 - 1) = Some row ∧
         p.2 < length header `min` length row ∧
         row_index e = p.1 ∧ column e = header !!! p.2 ∧ value e = row !!! p.2.

(** ** Examples *)

Definition scale_0_10 : ValidationRule :=
  {| type := SCALE; min_value := 0; max_value := 10; valid_options := ∅ |}.

Definition number_rule : ValidationRule :=
  {| type := NUMBER; min_value := 0; max_value := 10; valid_options := ∅ |}.

Definition yes_no : ValidationRule :=
  {| type := SINGLE; min_value := 0; max_value := 10;
     valid_options := {[ lit "Yes"; lit "No" ]} |}.

Definition two_files : filesystem :=
  λ filename,
    if bool_decide (filename = lit "crlf.csv")
    then Some (unlines [CR; LF] [lit "a,b,c"; []; lit "d"])
    else if bool_decide (filename = lit "lf.csv")
    then Some (unlines [LF] [lit "a,b,c"; []; lit "d"])
    else None.

(** A survey export: the second data row has one cell only. *)
Definition survey_lines : list str :=
  [lit "Edad,Satisfaccion,Acepta"; lit "31,7,Yes"; lit "x"; lit "40,11,Maybe"].

Definition survey_fs : filesystem :=
  λ filename,
    if bool_decide (filename = lit "survey.csv")
    then Some (unlines [LF] survey_lines) else None.

Definition survey_schema : list (str * column_rules) :=
  [ (lit "Edad",
     {| cr_type := Some (lit "number"); cr_min := None; cr_max := None;
        cr_options := None |});
    (lit "Satisfaccion",
     {| cr_type := Some (lit "Scale"); cr_min := Some 0%float;
        cr_max := Some 10%float; cr_options := None |});
    (lit "Acepta",
     {| cr_type := Some (lit "SINGLE"); cr_min := None; cr_max := None;
        cr_options := Some [lit " Yes"; lit "No "] |}) ].

Definition survey_header : list str :=
  [lit "Edad"; lit "Satisfaccion"; lit "Acepta"].

Definition survey_rows : list (list str) :=
  [ [lit "31"; lit "7"; lit "Yes"]; [lit "x"]; [lit "40"; lit "11"; lit "Maybe"] ].

(** ** Quoted fields *)

(** A cell as a CSV writer quotes it: every double quote doubled, and a
    double quote on each side. *)
Fixpoint escape (cell : str) : str :=
  match cell with
  | [] => []
  | c :: cell' =>
      if Ascii.eqb c dquote then dquote :: dquote :: escape cell'
      else c :: escape cell'
  end.

Definition quoted (cell : str) : str := dquote :: escape cell ++ [dquote].

(** * Properties *)

(** Closed disequalities are settled by evaluation. *)
Ltac differ := let H := fresh in intros H; vm_compute in H; discriminate H.

(** ** Tokenizer *)

Section tokenizer.
Variable delimiter : ascii.

(** Induction along the loop, which advances by one or two characters. *)
Lemma line_ind2 (P : str → Prop) :
  P [] →
  (∀ c, P [c]) →
  (∀ c c' rest, P rest → P (c' :: rest) → P (c :: c' :: rest)) →
  ∀ line, P line.
Proof.
  intros Hnil Hone Hcons line.
  assert (P line ∧ ∀ c, P (c :: line)) as [? _]; [|done].
  induction line as [|c' rest [IH1 IH2]]; split; auto.
Qed.

Lemma loop_nil q cell row :
  parse_csv_loop delimiter [] q cell row = row ++ [cell].
Proof. done. Qed.

Lemma loop_escaped rest cell row :
  parse_csv_loop delimiter (dquote :: dquote :: rest) true cell row
  = parse_csv_loop delimiter rest true (cell ++ [dquote]) row.
Proof. done. Qed.

Lemma loop_toggle rest q cell row :
  q = false ∨ head rest ≠ Some dquote →
  parse_csv_loop delimiter (dquote :: rest) q cell row
  = parse_csv_loop delimiter rest (negb q) cell row.
Proof.
  intros H. cbn [parse_csv_loop]. rewrite Ascii.eqb_refl.
  destruct rest as [|c' rest']; [done|].
  destruct H as [->|H]; [done|].
  rewrite (proj2 (Ascii.eqb_neq c' dquote)); [by rewrite andb_false_r|].
  naive_solver.
Qed.

Lemma loop_delimiter rest cell row :
  delimiter ≠ dquote →
  parse_csv_loop delimiter (delimiter :: rest) false cell row
  = parse_csv_loop delimiter rest false [] (row ++ [cell]).
Proof.
  intros H. cbn [parse_csv_loop].
  rewrite (proj2 (Ascii.eqb_neq delimiter dquote)) by done.
  by rewrite Ascii.eqb_refl.
Qed.

Lemma loop_literal c rest q cell row :
  c ≠ dquote → c ≠ delimiter ∨ q = true →
  parse_csv_loop delimiter (c :: rest) q cell row
  = parse_csv_loop delimiter rest q (cell ++ [c]) row.
Proof.
  intros H1 H2. cbn [parse_csv_loop].
  rewrite (proj2 (Ascii.eqb_neq c dquote)) by done.
  destruct H2 as [H2| ->].
  - by rewrite (proj2 (Ascii.eqb_neq c delimiter)).
  - by rewrite andb_false_r.
Qed.

Lemma loop_cons2 c c' rest q cell row :
  parse_csv_loop delimiter (c :: c' :: rest) q cell row
  = if Ascii.eqb c dquote then
      if q && Ascii.eqb c' dquote
      then parse_csv_loop delimiter rest q (cell ++ [dquote]) row
      else parse_csv_loop delimiter (c' :: rest) (negb q) cell row
    else if Ascii.eqb c delimiter && negb q
    then parse_csv_loop delimiter (c' :: rest) q [] (row ++ [cell])
    else parse_csv_loop delimiter (c' :: rest) q (cell ++ [c]) row.
Proof. done. Qed.

Lemma quote_flags_cons2 c c' rest q :
  quote_flags (c :: c' :: rest) q
  = if Ascii.eqb c dquote then
      if q && Ascii.eqb c' dquote
      then q :: q :: quote_flags rest q
      else q :: quote_flags (c' :: rest) (negb q)
    else q :: quote_flags (c' :: rest) q.
Proof. done. Qed.
End tokenizer.

Section tokenizer_cells.
Variable delimiter : ascii.
Hypothesis delimiter_not_quote : delimiter ≠ dquote.

Lemma quote_flags_length line q : length (quote_flags line q) = length line.
Proof.
  revert q. induction line as [|c|c c' rest IH1 IH2] using line_ind2;
    intros q; [done| |].
  - cbn. by destruct (Ascii.eqb c dquote).
  - rewrite quote_flags_cons2. destruct (Ascii.eqb c dquote).
    + destruct (q && Ascii.eqb c' dquote); rewrite !length_cons.
      * by rewrite IH1.
      * by rewrite IH2.
    + rewrite !length_cons. by rewrite IH2.
Qed.

Lemma last_quote_flags_cons c c' rest q :
  last (quote_flags (c :: c' :: rest) q)
  = if Ascii.eqb c dquote then
      if q && Ascii.eqb c' dquote
      then match rest with [] => Some q | _ => last (quote_flags rest q) end
      else last (quote_flags (c' :: rest) (negb q))
    else last (quote_flags (c' :: rest) q).
Proof.
  assert (∀ (b : bool) l q', l ≠ [] →
    last (b :: quote_flags l q') = last (quote_flags l q')) as Hcons.
  { intros b l q' Hl. pose proof (quote_flags_length l q') as Hlen.
    destruct (quote_flags l q') as [|b' fl] eqn:E; [|done].
    destruct l; [done|discriminate]. }
  rewrite quote_flags_cons2. destruct (Ascii.eqb c dquote).
  - destruct (q && Ascii.eqb c' dquote).
    + destruct rest as [|c'' rest]; [done|].
      rewrite last_cons_cons. by rewrite Hcons.
    + by rewrite Hcons.
  - by rewrite Hcons.
Qed.

(** A delimiter read outside quotes at the end of the line closes the
    cell before it and leaves an empty last cell. *)
Lemma loop_trailing_delimiter line q cell row :
  last line = Some delimiter →
  last (quote_flags line q) = Some false →
  last (parse_csv_loop delimiter line q cell row) = Some [].
Proof.
  revert q cell row.
  induction line as [|c|c c' rest IH1 IH2] using line_ind2;
    intros q cell row Hlast Hflag; [done| |].
  - injection Hlast as ->. cbn in Hflag.
    rewrite (proj2 (Ascii.eqb_neq delimiter dquote)) in Hflag by done.
    injection Hflag as ->. rewrite loop_delimiter by done.
    cbn. by rewrite last_snoc.
  - rewrite last_cons_cons in Hlast.
    rewrite last_quote_flags_cons in Hflag.
    rewrite loop_cons2.
    destruct (Ascii.eqb c dquote).
    + destruct (q && Ascii.eqb c' dquote) eqn:E.
      * destruct rest as [|c'' rest].
        { apply andb_prop in E as [_ E]. apply Ascii.eqb_eq in E.
          cbn in Hlast. congruence. }
        apply IH1; [by rewrite last_cons_cons in Hlast|done].
      * by apply IH2.
    + destruct (Ascii.eqb c delimiter && negb q); by apply IH2.
Qed.

(** Every delimiter read outside quotes starts one more cell. *)
Lemma loop_cell_count line q cell row :
  length (parse_csv_loop delimiter line q cell row)
  = length row + 1 +
    length (filter (λ cf, cf.1 = delimiter ∧ cf.2 = false)
                   (zip line (quote_flags line q))).
Proof.
  revert q cell row.
  assert (∀ c q, c = dquote →
    filter (λ cf : ascii * bool, cf.1 = delimiter ∧ cf.2 = false) [(c, q)] = [])
    as Hq.
  { intros c q ->. rewrite filter_cons_False; [done|].
    intros [? _]. by apply delimiter_not_quote. }
  induction line as [|c|c c' rest IH1 IH2] using line_ind2; intros q cell row.
  - cbn. rewrite length_app. cbn. lia.
  - cbn [parse_csv_loop quote_flags]. destruct (Ascii.eqb c dquote) eqn:Ec.
    + apply Ascii.eqb_eq in Ec. cbn [zip zip_with]. rewrite Hq by done.
      cbn. rewrite length_app. cbn. lia.
    + cbn [zip zip_with]. rewrite filter_cons.
      destruct (Ascii.eqb c delimiter && negb q) eqn:Ed.
      * apply andb_prop in Ed as [Ed Eq]. apply Ascii.eqb_eq in Ed.
        apply negb_true_iff in Eq. subst.
        rewrite decide_True by done. cbn. rewrite !length_app. cbn. lia.
      * rewrite decide_False.
        { cbn. rewrite length_app. cbn. lia. }
        cbn. intros [-> ->]. by rewrite Ascii.eqb_refl in Ed.
  - rewrite loop_cons2, quote_flags_cons2.
    destruct (Ascii.eqb c dquote) eqn:Ec.
    + apply Ascii.eqb_eq in Ec.
      destruct (q && Ascii.eqb c' dquote) eqn:E.
      * apply andb_prop in E as [_ E]. apply Ascii.eqb_eq in E.
        rewrite IH1. cbn [zip zip_with].
        subst. rewrite !filter_cons_False; [done| |];
          intros [? _]; by apply delimiter_not_quote.
      * rewrite IH2. cbn [zip zip_with].
        subst. rewrite (filter_cons_False _ (dquote, q)); [done|].
        intros [? _]. by apply delimiter_not_quote.
    + cbn [zip zip_with]. rewrite (filter_cons _ (c, q)).
      destruct (Ascii.eqb c delimiter && negb q) eqn:Ed.
      * apply andb_prop in Ed as [Ed Eq]. apply Ascii.eqb_eq in Ed.
        apply negb_true_iff in Eq. subst.
        rewrite decide_True by done. rewrite IH2. cbn [length].
        rewrite !length_app. cbn. lia.
      * rewrite decide_False.
        { by rewrite IH2. }
        cbn. intros [-> ->]. by rewrite Ascii.eqb_refl in Ed.
Qed.

(** A run of characters that are neither quotes nor delimiters is
    copied to the cell. *)
Lemma loop_plain s rest q cell row :
  plain_cell delimiter s →
  parse_csv_loop delimiter (s ++ rest) q cell row
  = parse_csv_loop delimiter rest q (cell ++ s) row.
Proof.
  intros Hs. revert cell.
  induction Hs as [|c s [Hd Hq] _ IH]; intros cell.
  - by rewrite app_nil_r.
  - cbn [app]. rewrite loop_literal by auto.
    rewrite IH. by rewrite <- app_assoc.
Qed.

Lemma loop_join cells row :
  cells ≠ [] →
  Forall (plain_cell delimiter) cells →
  parse_csv_loop delimiter (join delimiter cells) false [] row = row ++ cells.
Proof.
  intros Hne Hall. revert row Hne.
  induction Hall as [|cell cells Hcell Hall IH]; intros row Hne; [done|].
  destruct cells as [|cell' cells].
  - cbn [join]. rewrite <- (app_nil_r cell) at 1.
    by rewrite loop_plain.
  - cbn [join]. cbn [join] in IH.
    rewrite loop_plain by done. rewrite loop_delimiter by done.
    rewrite IH by done. by rewrite <- app_assoc.
Qed.
End tokenizer_cells.

(** With the double quote as delimiter the quote branch always wins: the
    line is never split. *)
Lemma loop_quote_delimiter line q cell row :
  length (parse_csv_loop dquote line q cell row) = length row + 1.
Proof.
  revert q cell row.
  induction line as [|c|c c' rest IH1 IH2] using line_ind2; intros q cell row.
  - cbn. by rewrite length_app.
  - cbn. destruct (Ascii.eqb c dquote); cbn; by rewrite length_app.
  - rewrite loop_cons2.
    destruct (Ascii.eqb c dquote); [|cbn [andb]; by rewrite IH2].
    destruct (q && Ascii.eqb c' dquote); [by rewrite IH1|by rewrite IH2].
Qed.

(** C1, as amended. The scan of [parse_csv_line] goes left to right with
    the flag [in_quotes]: a double quote inside quotes that is followed by
    a double quote adds one literal quote to the cell and both characters
    are consumed; any other double quote toggles [in_quotes]; a delimiter
    other than the double quote, read outside quotes, closes the cell as
    it is; any other character is added to the cell; at the end of the
    line the cell is appended even if it is empty. So the empty line
    gives one empty cell, and for a delimiter other than the double quote
    the number of cells is one more than the number of delimiters read
    outside quotes (one cell when there is none) and a line ending in
    such a delimiter gives an empty last cell. With the double quote as
    delimiter the line is never split. *)
Theorem tokenizer_scan (delimiter : ascii) :
  (∀ rest cell row,
     parse_csv_loop delimiter (dquote :: dquote :: rest) true cell row
     = parse_csv_loop delimiter rest true (cell ++ [dquote]) row) ∧
  (∀ rest q cell row,
     q = false ∨ head rest ≠ Some dquote →
     parse_csv_loop delimiter (dquote :: rest) q cell row
     = parse_csv_loop delimiter rest (negb q) cell row) ∧
  (delimiter ≠ dquote → ∀ rest cell row,
     parse_csv_loop delimiter (delimiter :: rest) false cell row
     = parse_csv_loop delimiter rest false [] (row ++ [cell])) ∧
  (∀ c rest q cell row,
     c ≠ dquote → c ≠ delimiter ∨ q = true →
     parse_csv_loop delimiter (c :: rest) q cell row
     = parse_csv_loop delimiter rest q (cell ++ [c]) row) ∧
  (∀ q cell row, parse_csv_loop delimiter [] q cell row = row ++ [cell]) ∧
  parse_csv_line [] comma = [[]] ∧
  (delimiter ≠ dquote → ∀ line,
     length (parse_csv_line line delimiter)
     = 1 + unquoted_delimiters delimiter line) ∧
  (∀ line, unquoted_delimiters delimiter line = 0 →
     length (parse_csv_line line delimiter) = 1) ∧
  (delimiter ≠ dquote → ∀ line,
     ends_in_unquoted_delimiter delimiter line →
     last (parse_csv_line line delimiter) = Some []) ∧
  (∀ line, length (parse_csv_line line dquote) = 1).
Proof.
  repeat apply conj.
  - apply loop_escaped.
  - apply loop_toggle.
  - intros. by apply loop_delimiter.
  - apply loop_literal.
  - apply loop_nil.
  - done.
  - intros Hd line. unfold parse_csv_line, unquoted_delimiters.
    by rewrite loop_cell_count.
  - intros line H0. destruct (decide (delimiter = dquote)) as [->|Hd].
    + apply loop_quote_delimiter.
    + unfold parse_csv_line, unquoted_delimiters in *.
      rewrite loop_cell_count by done. by rewrite H0.
  - intros Hd line [Hlast Hflag]. by apply loop_trailing_delimiter.
  - intros line. apply loop_quote_delimiter.
Qed.

Lemma tokenizer_scan_witness :
  parse_csv_line (lit "a,b") comma = [lit "a"; lit "b"] ∧
  length (parse_csv_line (lit "a,b") comma) = 2 ∧
  length (parse_csv_line (lit "ab") comma) = 1 ∧
  last (parse_csv_line (lit "a,") comma) = Some [].
Proof.
  destruct (tokenizer_scan comma)
    as (_ & Htoggle & Hdelim & Hlit & Hnil & _ & Hcount & Hone & Hlast & _).
  repeat apply conj.
  - unfold parse_csv_line. cbn [lit list_ascii_of_string].
    rewrite Hlit; [|discriminate|left; discriminate].
    rewrite Hdelim; [|discriminate].
    rewrite Hlit; [|discriminate|left; discriminate].
    by rewrite Hnil.
  - rewrite Hcount; [reflexivity|discriminate].
  - apply Hone. reflexivity.
  - apply Hlast; [discriminate|]. split; reflexivity.
Defined.

(** The lines of the specification's examples. *)
Example tokenizer_examples :
  parse_csv_line (lit "a,b,c") comma = [lit "a"; lit "b"; lit "c"] ∧
  parse_csv_line (lit "a," ++ [dquote] ++ lit "b,c" ++ [dquote] ++ lit ",d") comma
  = [lit "a"; lit "b,c"; lit "d"] ∧
  parse_csv_line
    (lit "a," ++ [dquote] ++ lit "b" ++ [dquote; dquote] ++ lit "c"
       ++ [dquote] ++ lit ",d") comma
  = [lit "a"; lit "b" ++ [dquote] ++ lit "c"; lit "d"] ∧
  parse_csv_line [] comma = [[]] ∧
  parse_csv_line (lit "a,") comma = [lit "a"; []] ∧
  parse_csv_line (lit " a , b ") comma = [lit " a "; lit " b "] ∧
  parse_csv_line (lit "a," ++ [dquote] ++ lit "b,c") comma = [lit "a"; lit "b,c"].
Proof. by vm_compute. Qed.

(** The claim as written fails when the delimiter is the double quote:
    the line made of [a] and a double quote ends in a delimiter read
    outside quotes, and its only cell is [a]. *)
Lemma tokenizer_scan_counterexample :
  ends_in_unquoted_delimiter dquote (lit "a" ++ [dquote]) ∧
  parse_csv_line (lit "a" ++ [dquote]) dquote = [lit "a"] ∧
  last (parse_csv_line (lit "a" ++ [dquote]) dquote) ≠ Some [].
Proof. repeat split. differ. Qed.

(** C8, as amended. For a delimiter other than the double quote and a
    row of at least one cell, none of which holds the delimiter or a
    double quote, tokenizing the cells joined by the delimiter gives the
    cells back. *)
Theorem tokenizer_roundtrip (delimiter : ascii) (cells : list str) :
  delimiter ≠ dquote →
  cells ≠ [] →
  Forall (plain_cell delimiter) cells →
  parse_csv_line (join delimiter cells) delimiter = cells.
Proof. intros Hd Hne Hall. unfold parse_csv_line. by rewrite loop_join. Qed.

Lemma tokenizer_roundtrip_witness :
  parse_csv_line (join comma [lit "a"; []; lit "b c"]) comma
  = [lit "a"; []; lit "b c"].
Proof.
  apply tokenizer_roundtrip; [discriminate|discriminate|].
  apply (bool_decide_unpack _). vm_compute. exact I.
Defined.

(** The claim as written fails for the sequence of no cells, whose join
    is the empty line, and for the double quote as delimiter. *)
Lemma tokenizer_roundtrip_counterexample :
  (Forall (plain_cell comma) [] ∧
   parse_csv_line (join comma []) comma ≠ []) ∧
  (Forall (plain_cell dquote) [lit "a"; lit "b"] ∧
   parse_csv_line (join dquote [lit "a"; lit "b"]) dquote
   ≠ [lit "a"; lit "b"]).
Proof.
  split; split.
  - constructor.
  - differ.
  - apply (bool_decide_unpack _). vm_compute. exact I.
  - differ.
Qed.

(** ** File reader *)

Section reader.
Variable delimiter : ascii.

Lemma loop_nonempty line q cell row :
  parse_csv_loop delimiter line q cell row ≠ [].
Proof.
  revert q cell row.
  induction line as [|c|c c' rest IH1 IH2] using line_ind2; intros q cell row.
  - cbn. by destruct row.
  - cbn. destruct (Ascii.eqb c dquote); [by destruct row|].
    destruct (Ascii.eqb c delimiter && negb q); cbn;
      [by destruct row|by destruct row].
  - rewrite loop_cons2. repeat case_match; auto.
Qed.

Lemma strip_cr_snoc line : strip_cr (line ++ [CR]) = line.
Proof.
  unfold strip_cr. rewrite last_snoc. cbn. apply removelast_last.
Qed.

Lemma strip_cr_other line : last line ≠ Some CR → strip_cr line = line.
Proof.
  unfold strip_cr. intros H. destruct (last line) as [c|]; [|done].
  destruct (Ascii.eqb c CR) eqn:E; [|done].
  apply Ascii.eqb_eq in E. by subst.
Qed.

Lemma row_of_line_cr line :
  last line ≠ Some CR →
  row_of_line delimiter (line ++ [CR]) = row_of_line delimiter line.
Proof.
  intros H. unfold row_of_line. by rewrite strip_cr_snoc, strip_cr_other.
Qed.

Lemma read_lines_flat_map lines result :
  read_lines delimiter lines result
  = result ++ flat_map (row_of_line delimiter) lines.
Proof.
  revert result. induction lines as [|line more IH]; intros result.
  - cbn. by rewrite app_nil_r.
  - cbn [read_lines flat_map]. unfold row_of_line at 1.
    destruct (strip_cr line); rewrite IH; [done|].
    by rewrite <- app_assoc.
Qed.

Lemma getlines_line line rest acc :
  LF ∉ line →
  getlines (line ++ LF :: rest) acc = (acc ++ line) :: getlines rest [].
Proof.
  revert acc. induction line as [|c line IH]; intros acc Hnl.
  - cbn. by rewrite app_nil_r.
  - apply not_elem_of_cons in Hnl as [Hc Hnl]. cbn.
    rewrite (proj2 (Ascii.eqb_neq c LF)) by done.
    rewrite IH by done. by rewrite <- app_assoc.
Qed.

Lemma getlines_unlines_lf lines :
  Forall (λ line, LF ∉ line) lines →
  getlines (unlines [LF] lines) [] = lines.
Proof.
  induction 1 as [|line lines Hline _ IH]; [done|].
  cbn [unlines flat_map]. rewrite <- app_assoc. cbn [app].
  rewrite getlines_line by done. by f_equal.
Qed.

Lemma getlines_unlines_crlf lines :
  Forall (λ line, LF ∉ line) lines →
  getlines (unlines [CR; LF] lines) [] = map (λ line, line ++ [CR]) lines.
Proof.
  induction 1 as [|line lines Hline _ IH]; [done|].
  cbn [unlines flat_map map].
  replace ((line ++ [CR; LF]) ++ flat_map (λ line, line ++ [CR; LF]) lines)
    with ((line ++ [CR]) ++ LF :: unlines [CR; LF] lines)
    by (by rewrite <- !app_assoc).
  rewrite getlines_line; [by f_equal|].
  rewrite elem_of_app, list_elem_of_singleton. intros [?|?]; [done|discriminate].
Qed.

Lemma rows_crlf_lf lines :
  Forall line_body lines →
  read_lines delimiter (getlines (unlines [CR; LF] lines) []) []
  = read_lines delimiter (getlines (unlines [LF] lines) []) [].
Proof.
  intros Hlines.
  assert (Forall (λ line, LF ∉ line) lines) as Hlf.
  { eapply Forall_impl; [done|]. by intros line [? _]. }
  rewrite getlines_unlines_crlf, getlines_unlines_lf by done.
  rewrite !read_lines_flat_map. f_equal.
  induction Hlines as [|line lines [_ Hcr] _ IH]; [done|].
  cbn [map flat_map]. rewrite row_of_line_cr by done. f_equal.
  apply IH. by inversion Hlf.
Qed.
End reader.

(** C4. For a file that can be opened, [read_csv_impl] visits the physical
    lines in order; from each it removes one carriage return at the end, if
    there is one, and no more; a line that is then empty adds nothing, any
    other adds the cells of [parse_csv_line] for the delimiter, with the
    cell count the tokenizer gives it; so no row of the result is without
    cells, and a file whose lines end in CR LF reads as the file with the
    same lines ending in LF. *)
Theorem reader_lines (fs : filesystem) (filename : str) (delimiter : ascii)
    (content : str) :
  fs filename = Some content →
  read_csv_impl fs filename delimiter
    = Ok (flat_map (row_of_line delimiter) (getlines content [])) ∧
  (∀ line, strip_cr (line ++ [CR]) = line) ∧
  (∀ line, last line ≠ Some CR → strip_cr line = line) ∧
  (∀ line, last line ≠ Some CR →
     row_of_line delimiter (line ++ [CR]) = row_of_line delimiter line) ∧
  (∀ line, strip_cr line = [] → row_of_line delimiter line = []) ∧
  (∀ line, strip_cr line ≠ [] →
     row_of_line delimiter line = [parse_csv_line (strip_cr line) delimiter]) ∧
  (∀ rows, read_csv_impl fs filename delimiter = Ok rows →
     Forall (λ row, row ≠ []) rows) ∧
  (∀ lines other,
     Forall line_body lines →
     content = unlines [CR; LF] lines →
     fs other = Some (unlines [LF] lines) →
     read_csv_impl fs filename delimiter = read_csv_impl fs other delimiter).
Proof.
  intros Hfile.
  assert (read_csv_impl fs filename delimiter
    = Ok (flat_map (row_of_line delimiter) (getlines content []))) as Hread.
  { unfold read_csv_impl. rewrite Hfile. by rewrite read_lines_flat_map. }
  repeat apply conj.
  - done.
  - apply strip_cr_snoc.
  - apply strip_cr_other.
  - apply row_of_line_cr.
  - intros line H. unfold row_of_line. by rewrite H.
  - intros line H. unfold row_of_line. by destruct (strip_cr line).
  - intros rows Hrows. rewrite Hread in Hrows. injection Hrows as <-.
    apply Forall_forall. intros row Hin.
    apply list_elem_of_In, in_flat_map in Hin as (line & _ & Hin).
    unfold row_of_line in Hin. destruct (strip_cr line); [done|].
    destruct Hin as [<-|[]]. apply loop_nonempty.
  - intros lines other Hlines -> Hother. unfold read_csv_impl.
    rewrite Hfile, Hother. f_equal. by apply rows_crlf_lf.
Qed.

Lemma reader_lines_witness :
  read_csv_impl two_files (lit "crlf.csv") comma
    = Ok [[lit "a"; lit "b"; lit "c"]; [lit "d"]] ∧
  read_csv_impl two_files (lit "crlf.csv") comma
    = read_csv_impl two_files (lit "lf.csv") comma.
Proof.
  destruct (reader_lines two_files (lit "crlf.csv") comma
              (unlines [CR; LF] [lit "a,b,c"; []; lit "d"]) eq_refl)
    as (Hread & _ & _ & _ & _ & _ & _ & Hcrlf).
  split.
  - rewrite Hread. reflexivity.
  - apply (Hcrlf [lit "a,b,c"; []; lit "d"]); [|reflexivity|reflexivity].
    apply (bool_decide_unpack _). vm_compute. exact I.
Defined.

(** ** Trimming *)

Section trim.
Lemma trim_start_app pre rest :
  spaces pre →
  (∀ c, head rest = Some c → isspace c = false) →
  trim_start (pre ++ rest) = length pre.
Proof.
  intros Hpre Hrest. induction Hpre as [|c pre Hc _ IH]; cbn.
  - destruct rest as [|c rest]; [done|]. cbn. by rewrite Hrest.
  - by rewrite Hc, IH.
Qed.

Lemma char_at_middle pre c post :
  char_at (pre ++ c :: post) (Z.of_nat (length pre)) = c.
Proof. unfold char_at. rewrite Nat2Z.id. apply nth_middle. Qed.

(** The backward loop, started behind white space that follows a
    character [x] that is none, stops on [x]. *)
Lemma trim_back_spaces pre core x ws post fuel :
  isspace x = false →
  spaces ws →
  length ws < fuel →
  trim_back (pre ++ core ++ x :: ws ++ post) (Z.of_nat (length pre)) fuel
    (Z.of_nat (length pre + length core + 1 + length ws))
  = Z.of_nat (length pre + length core).
Proof.
  intros Hx Hws. revert post fuel.
  induction ws as [|w ws IH] using rev_ind; intros post fuel Hfuel.
  - replace (Z.of_nat (length pre + length core + 1 + length []))
      with (Z.of_nat (length pre + length core) + 1)%Z by (cbn; lia).
    destruct fuel as [|fuel]; [cbn in Hfuel; lia|]. cbn [trim_back].
    replace (Z.of_nat (length pre + length core) + 1 - 1)%Z
      with (Z.of_nat (length (pre ++ core))) by (rewrite length_app; lia).
    cbn [app]. rewrite (app_assoc pre core), char_at_middle, Hx.
    rewrite andb_false_r, length_app. lia.
  - apply Forall_app in Hws as [Hws Hw]. apply Forall_inv in Hw.
    rewrite length_app in Hfuel. cbn in Hfuel.
    destruct fuel as [|fuel]; [lia|]. cbn [trim_back].
    replace (Z.of_nat (length pre + length core + 1 + length (ws ++ [w])) - 1)%Z
      with (Z.of_nat (length pre + length core + 1 + length ws))
      by (rewrite length_app; cbn; lia).
    replace (pre ++ core ++ x :: (ws ++ [w]) ++ post)
      with ((pre ++ core ++ x :: ws) ++ w :: post)
      by (by rewrite <- ?app_assoc; cbn; rewrite <- ?app_assoc).
    replace (Z.of_nat (length pre + length core + 1 + length ws))
      with (Z.of_nat (length (pre ++ core ++ x :: ws))) at 2
      by (rewrite !length_app; cbn; lia).
    rewrite char_at_middle, Hw.
    replace (0 <? Z.of_nat (length pre + length core + 1 + length ws)
                  - Z.of_nat (length pre))%Z with true
      by (symmetry; apply Z.ltb_lt; lia).
    cbn [andb].
    replace ((pre ++ core ++ x :: ws) ++ w :: post)
      with (pre ++ core ++ x :: ws ++ w :: post)
      by (by rewrite <- ?app_assoc; cbn).
    apply IH; [done|lia].
Qed.

(** The backward loop on a string of white space only: one step. *)
Lemma trim_back_all_spaces s fuel :
  0 < fuel →
  trim_back s (Z.of_nat (length s)) fuel (Z.of_nat (length s))
  = (Z.of_nat (length s) - 1)%Z.
Proof.
  intros Hfuel. destruct fuel as [|fuel]; [lia|]. cbn [trim_back].
  replace (0 <? Z.of_nat (length s) - 1 - Z.of_nat (length s))%Z with false;
    [done|]. symmetry. apply Z.ltb_ge. lia.
Qed.

Lemma trim_back_fuel_spaces s fuel :
  spaces s →
  0 < fuel →
  trim_back s (Z.of_nat (trim_start s)) fuel (Z.of_nat (length s))
  = (Z.of_nat (length s) - 1)%Z.
Proof.
  intros Hs Hfuel. assert (trim_start s = length s) as ->.
  { rewrite <- (app_nil_r s) at 1. by apply trim_start_app. }
  by apply trim_back_all_spaces.
Qed.

Lemma trim_back_fuel_core pre core x ws fuel :
  spaces pre → spaces ws → isspace x = false →
  (∀ c, head (core ++ [x]) = Some c → isspace c = false) →
  let s := pre ++ (core ++ [x]) ++ ws in
  length ws < fuel →
  trim_start s = length pre ∧
  trim_back s (Z.of_nat (trim_start s)) fuel (Z.of_nat (length s))
  = Z.of_nat (length pre + length core).
Proof.
  intros Hpre Hws Hx Hhead s Hfuel. subst s.
  assert (trim_start (pre ++ (core ++ [x]) ++ ws) = length pre) as Hstart.
  { apply trim_start_app; [done|]. intros c Hc. apply Hhead.
    by destruct core. }
  split; [done|]. rewrite Hstart.
  replace (pre ++ (core ++ [x]) ++ ws) with (pre ++ core ++ x :: ws ++ [])
    by (by rewrite app_nil_r, <- ?app_assoc; cbn).
  replace (length (pre ++ core ++ x :: ws ++ []))
    with (length pre + length core + 1 + length ws)
    by (rewrite !length_app; cbn; rewrite length_app; cbn; lia).
  by apply trim_back_spaces.
Qed.

Lemma leading_spaces s :
  ∃ pre rest, s = pre ++ rest ∧ spaces pre ∧
              ∀ c, head rest = Some c → isspace c = false.
Proof.
  induction s as [|c s (pre & rest & -> & Hpre & Hrest)].
  - exists [], []. split; [done|]. split; [constructor|done].
  - destruct (isspace c) eqn:Ec.
    + exists (c :: pre), rest. split; [done|]. split; [by constructor|done].
    + exists [], (c :: pre ++ rest). split; [done|]. split; [constructor|].
      by intros c' [= <-].
Qed.

(** Every string is white space, a core without outer white space, and
    white space. *)
Lemma outer_spaces s :
  ∃ pre core ws, s = pre ++ core ++ ws ∧ spaces pre ∧ spaces ws ∧
                 no_outer_space core.
Proof.
  destruct (leading_spaces s) as (pre & rest & -> & Hpre & Hrest).
  destruct (leading_spaces (reverse rest)) as (ws & core & Hrev & Hws & Hcore).
  apply (f_equal reverse) in Hrev.
  rewrite reverse_involutive, reverse_app in Hrev. subst rest.
  exists pre, (reverse core), (reverse ws).
  split; [done|]. split; [done|]. split; [by apply Forall_reverse|]. split.
  - intros c Hc. apply Hrest. by destruct (reverse core).
  - intros c Hc. apply Hcore. by rewrite last_reverse in Hc.
Qed.

Lemma substring_middle pre core ws :
  substring (pre ++ core ++ ws) (Z.of_nat (length pre))
    (Z.of_nat (length pre + length core)) = core.
Proof.
  unfold substring. rewrite Nat2Z.id, drop_app_length.
  replace (Z.to_nat (Z.of_nat (length pre + length core) - Z.of_nat (length pre)))
    with (length core) by lia.
  apply take_app_length.
Qed.

Lemma trim_spaces s : spaces s → trim s = [].
Proof.
  intros Hs. unfold trim, trim_end. rewrite trim_back_fuel_spaces by (done || lia).
  unfold substring.
  replace (Z.to_nat (Z.of_nat (length s) - 1 + 1 - Z.of_nat (trim_start s)))
    with 0; [done|].
  assert (trim_start s = length s) as ->; [|lia].
  rewrite <- (app_nil_r s) at 1. by apply trim_start_app.
Qed.

(** [trim] returns the core, whatever white space surrounds it. *)
Lemma trim_core pre core ws :
  spaces pre → spaces ws → no_outer_space core →
  trim (pre ++ core ++ ws) = core.
Proof.
  intros Hpre Hws [Hhead Hlast].
  destruct core as [|x core _] using rev_ind.
  - apply trim_spaces. by apply Forall_app.
  - destruct (trim_back_fuel_core pre core x ws
                (S (length (pre ++ (core ++ [x]) ++ ws)))) as [Hstart Hend];
      [done|done| |done| |].
    { apply Hlast. by rewrite last_snoc. }
    { rewrite !length_app. lia. }
    unfold trim, trim_end. rewrite Hend, Hstart.
    replace (Z.of_nat (length pre + length core) + 1)%Z
      with (Z.of_nat (length pre + length (core ++ [x])))
      by (rewrite length_app; cbn; lia).
    apply substring_middle.
Qed.

(** [trim] is total, and its result is the input without the white
    space at its two ends. *)
Lemma trim_removes_outer_space s :
  ∃ pre ws, s = pre ++ trim s ++ ws ∧ spaces pre ∧ spaces ws ∧
            no_outer_space (trim s).
Proof.
  destruct (outer_spaces s) as (pre & core & ws & -> & Hpre & Hws & Hcore).
  exists pre, ws. by rewrite trim_core.
Qed.

(** The backward loop is left by its test before the fuel is used up:
    more fuel changes nothing. *)
Lemma trim_back_fuel s fuel :
  length s < fuel →
  trim_back s (Z.of_nat (trim_start s)) fuel (Z.of_nat (length s)) = trim_end s.
Proof.
  intros Hfuel. unfold trim_end.
  destruct (outer_spaces s) as (pre & core & ws & -> & Hpre & Hws & Hcore).
  destruct core as [|x core _] using rev_ind.
  - cbn [app] in *.
    by rewrite !trim_back_fuel_spaces by first [by apply Forall_app|lia].
  - destruct Hcore as [Hhead Hlast].
    assert (isspace x = false) as Hx by (apply Hlast; by rewrite last_snoc).
    destruct (trim_back_fuel_core pre core x ws fuel) as [_ ->];
      [done|done|done|done| |].
    { rewrite !length_app in Hfuel. lia. }
    destruct (trim_back_fuel_core pre core x ws
                (S (length (pre ++ (core ++ [x]) ++ ws)))) as [_ ->];
      [done|done|done|done| |done].
    rewrite !length_app. lia.
Qed.

(** On a string that is not empty the backward loop stays inside it. *)
Lemma trim_end_in_range s :
  s ≠ [] → (0 ≤ trim_end s < Z.of_nat (length s))%Z.
Proof.
  intros Hne. unfold trim_end.
  destruct (outer_spaces s) as (pre & core & ws & -> & Hpre & Hws & Hcore).
  destruct core as [|x core _] using rev_ind.
  - cbn [app] in *.
    rewrite trim_back_fuel_spaces; [|by apply Forall_app|lia].
    destruct (pre ++ ws); [done|]. cbn [length]. lia.
  - destruct Hcore as [Hhead Hlast].
    assert (isspace x = false) as Hx by (apply Hlast; by rewrite last_snoc).
    destruct (trim_back_fuel_core pre core x ws
                (S (length (pre ++ (core ++ [x]) ++ ws)))) as [_ ->];
      [done|done|done|done| |].
    { rewrite !length_app. lia. }
    rewrite !length_app. cbn. lia.
Qed.
End trim.

(** C9. On the empty string, which every empty cell hands to [trim], the
    first [--end] of the backward loop leaves [end] one position before
    [begin()]; the string returned is empty. *)
Theorem trim_empty_end_before_begin :
  trim_start [] = 0 ∧ trim_end [] = (-1)%Z ∧ (trim_end [] < 0)%Z ∧ trim [] = [].
Proof. by vm_compute. Qed.

(** ** Validator: one cell *)

Section validate_value.
Variable stod : str → option (float * nat).
Variable put_double : float → str.

Abbreviation validate := (validate_value stod put_double).

Lemma validate_empty value rule i col errs :
  trim value = [] → validate value rule i col errs = (py_none, errs).
Proof. intros H. unfold validate_value. by rewrite H. Qed.

Lemma validate_number value rule i col errs :
  type rule = NUMBER → trim value ≠ [] →
  validate value rule i col errs
  = match stod (trim value) with
    | Some (num, pos) =>
        if bool_decide (pos = length (trim value)) then (py_float num, errs)
        else (py_none, errs ++ [error_at i col value msg_number])
    | None => (py_none, errs ++ [error_at i col value msg_number])
    end.
Proof.
  intros Hrule Hne. unfold validate_value. rewrite Hrule.
  destruct (trim value) as [|c t] eqn:Et; [done|].
  destruct (stod (c :: t)) as [[num pos]|]; [|done].
  case_bool_decide as Hpos.
  - by rewrite (proj2 (Nat.eqb_eq _ _) Hpos).
  - by rewrite (proj2 (Nat.eqb_neq _ _) Hpos).
Qed.

Lemma validate_scale value rule i col errs :
  type rule = SCALE → trim value ≠ [] →
  validate value rule i col errs
  = match stod (trim value) with
    | Some (num, pos) =>
        if bool_decide (pos = length (trim value)) then
          if (num <? min_value rule)%float || (max_value rule <? num)%float
          then (py_none,
                errs ++ [error_at i col value (msg_range put_double rule)])
          else (py_float num, errs)
        else (py_none, errs ++ [error_at i col value msg_scale])
    | None => (py_none, errs ++ [error_at i col value msg_scale])
    end.
Proof.
  intros Hrule Hne. unfold validate_value. rewrite Hrule.
  destruct (trim value) as [|c t] eqn:Et; [done|].
  destruct (stod (c :: t)) as [[num pos]|]; [|done].
  case_bool_decide as Hpos.
  - by rewrite (proj2 (Nat.eqb_eq _ _) Hpos).
  - by rewrite (proj2 (Nat.eqb_neq _ _) Hpos).
Qed.

Lemma validate_single value rule i col errs :
  type rule = SINGLE → trim value ≠ [] →
  validate value rule i col errs
  = if bool_decide (valid_options rule ≠ ∅ ∧ trim value ∉ valid_options rule)
    then (py_none, errs ++ [error_at i col value msg_option])
    else (py_str (trim value), errs).
Proof.
  intros Hrule Hne. unfold validate_value. rewrite Hrule.
  destruct (trim value) as [|c t] eqn:Et; [done|].
  destruct (bool_decide (valid_options rule = ∅)) eqn:E1;
    destruct (bool_decide (c :: t ∈ valid_options rule)) eqn:E2; cbn;
    [apply bool_decide_eq_true in E1, E2
    |apply bool_decide_eq_true in E1; apply bool_decide_eq_false in E2
    |apply bool_decide_eq_false in E1; apply bool_decide_eq_true in E2
    |apply bool_decide_eq_false in E1, E2].
  - rewrite bool_decide_eq_false_2; [done|]. by intros [? _].
  - rewrite bool_decide_eq_false_2; [done|]. by intros [? _].
  - rewrite bool_decide_eq_false_2; [done|]. by intros [_ ?].
  - by rewrite bool_decide_eq_true_2.
Qed.

Lemma validate_text value rule i col errs :
  type rule = TEXT → trim value ≠ [] →
  validate value rule i col errs = (py_str (trim value), errs).
Proof.
  intros Hrule Hne. unfold validate_value. rewrite Hrule.
  by destruct (trim value).
Qed.

(** The errors are appended to the vector: at most one, and it names the
    row, the column and the text of the cell as it was read. *)
Lemma validate_appends value rule i col errs :
  ∃ new, validate value rule i col [] = ((validate value rule i col errs).1, new) ∧
         (validate value rule i col errs).2 = errs ++ new ∧
         (new = [] ∨ ∃ message, new = [error_at i col value message]).
Proof.
  destruct (decide (trim value = [])) as [He|Hne].
  { rewrite !validate_empty by done. exists []. by rewrite app_nil_r; auto. }
  assert (∀ v : py_object,
    ∃ new, (v, []) = (v, new) ∧ errs = errs ++ new ∧
           (new = [] ∨ ∃ message, new = [error_at i col value message]))
    as Hok.
  { intros v. exists []. by rewrite app_nil_r; auto. }
  assert (∀ (v : py_object) message,
    ∃ new, (v, [] ++ [error_at i col value message]) = (v, new) ∧
           errs ++ [error_at i col value message] = errs ++ new ∧
           (new = [] ∨ ∃ message, new = [error_at i col value message]))
    as Hbad.
  { intros v message. exists [error_at i col value message]. eauto. }
  destruct (type rule) eqn:Hrule.
  - rewrite !validate_text by done. apply Hok.
  - rewrite !validate_number by done.
    destruct (stod (trim value)) as [[num pos]|]; [case_bool_decide|];
      cbn [fst snd]; auto.
  - rewrite !validate_scale by done.
    destruct (stod (trim value)) as [[num pos]|];
      [case_bool_decide; [case_match|]|]; cbn [fst snd]; auto.
  - rewrite !validate_single by done.
    case_bool_decide; cbn [fst snd]; auto.
Qed.
End validate_value.




(** C7. Under a SINGLE rule a cell that is not empty once trimmed is
    accepted, as its trimmed text, when the option set is empty or holds
    the trimmed text; otherwise the cell becomes [None] and one error
    with the message [msg_option] (the source's Spanish for: invalid
    option) is pushed. With the options Yes and No, the cell Yes with a
    space on each side gives Yes, and Maybe gives [None] and one error. *)
Theorem single_option_membership (stod : str → option (float * nat))
    (put_double : float → str) (rule : ValidationRule) (i : nat) (col : str)
    (errs : list ValidationError) :
  type rule = SINGLE →
  (∀ value,
     trim value ≠ [] → valid_options rule ≠ ∅ →
     trim value ∈ valid_options rule →
     validate_value stod put_double value rule i col errs
     = (py_str (trim value), errs)) ∧
  (∀ value,
     trim value ≠ [] → valid_options rule ≠ ∅ →
     trim value ∉ valid_options rule →
     validate_value stod put_double value rule i col errs
     = (py_none, errs ++ [error_at i col value msg_option])) ∧
  (∀ value,
     trim value ≠ [] → valid_options rule = ∅ →
     validate_value stod put_double value rule i col errs
     = (py_str (trim value), errs)) ∧
  (valid_options rule = {[ lit "Yes"; lit "No" ]} →
     validate_value stod put_double (lit " Yes ") rule i col errs
     = (py_str (lit "Yes"), errs) ∧
     validate_value stod put_double (lit "Maybe") rule i col errs
     = (py_none, errs ++ [error_at i col (lit "Maybe") msg_option])) ∧
  msg_option = lit "Opción no válida".
Proof.
  intros Hrule. split_and!; [| | | |done].
  - intros value Hne Hset Hin. rewrite validate_single by done.
    rewrite bool_decide_eq_false_2; [done|]. by intros [_ ?].
  - intros value Hne Hset Hin. rewrite validate_single by done.
    by rewrite bool_decide_eq_true_2.
  - intros value Hne Hset. rewrite validate_single by done.
    rewrite bool_decide_eq_false_2; [done|]. by intros [? _].
  - intros Hset. split.
    + rewrite validate_single; [|done|differ].
      change (trim (lit " Yes ")) with (lit "Yes").
      rewrite bool_decide_eq_false_2; [done|].
      intros [_ Hin]. apply Hin. rewrite Hset. set_solver.
    + rewrite validate_single; [|done|differ].
      change (trim (lit "Maybe")) with (lit "Maybe").
      rewrite bool_decide_eq_true_2; [done|]. rewrite Hset. split.
      * intros Hempty. assert (lit "Yes" ∈ (∅ : gset str)) as Hin; [|set_solver].
        rewrite <- Hempty. set_solver.
      * rewrite elem_of_union, !elem_of_singleton. intros [H|H]; discriminate H.
Qed.

Lemma single_option_membership_witness :
  validate_value reference.stod reference.put_double (lit " Yes ") yes_no
    2 (lit "Acepta") [] = (py_str (lit "Yes"), []) ∧
  validate_value reference.stod reference.put_double (lit "Maybe") yes_no
    2 (lit "Acepta") []
  = (py_none, [error_at 2 (lit "Acepta") (lit "Maybe") msg_option]) ∧
  validate_value reference.stod reference.put_double (lit "yes") yes_no
    2 (lit "Acepta") []
  = (py_none, [error_at 2 (lit "Acepta") (lit "yes") msg_option]) ∧
  validate_value reference.stod reference.put_double (lit "anything")
    {| type := SINGLE; min_value := 0; max_value := 10; valid_options := ∅ |}
    2 (lit "Acepta") [] = (py_str (lit "anything"), []).
Proof.
  destruct (single_option_membership reference.stod reference.put_double yes_no
              2 (lit "Acepta") [] eq_refl) as (_ & Hbad & _ & Hyes & _).
  destruct (Hyes eq_refl) as [H1 H2].
  destruct (single_option_membership reference.stod reference.put_double
              {| type := SINGLE; min_value := 0; max_value := 10;
                 valid_options := ∅ |}
              2 (lit "Acepta") [] eq_refl) as (_ & _ & Hany & _ & _).
  split_and!; [done|done| |].
  - apply (Hbad (lit "yes")); [differ| |].
    + apply (bool_decide_unpack _). vm_compute. exact I.
    + apply (bool_decide_unpack _). vm_compute. exact I.
  - apply (Hany (lit "anything")); [differ|reflexivity].
Defined.

(** C5. A cell that is empty once trimmed gives [None] and no error,
    whatever the rule: the test comes before the switch on the kind. In
    the column loop a cell whose column has a rule goes through it, and a
    cell whose column has none is stored as its trimmed text, a string
    even when it is empty, with no error. *)
Theorem empty_cell_policy (stod : str → option (float * nat))
    (put_double : float → str) (rules : gmap str ValidationRule)
    (header row : list str) (i j : nat) (d : py_dict)
    (errs : list ValidationError) :
  (∀ value rule col,
     trim value = [] →
     validate_value stod put_double value rule i col errs = (py_none, errs)) ∧
  (∀ rule,
     rules !! (header !!! j) = Some rule →
     trim (row !!! j) = [] →
     validate_cell stod put_double rules header row i (d, errs) j
     = (<[ header !!! j := py_none ]> d, errs)) ∧
  (rules !! (header !!! j) = None →
     validate_cell stod put_double rules header row i (d, errs) j
     = (<[ header !!! j := py_str (trim (row !!! j)) ]> d, errs) ∧
     py_str (trim (row !!! j)) ≠ py_none).
Proof.
  split_and!.
  - intros value rule col H. by apply validate_empty.
  - intros rule Hrule H. unfold validate_cell. rewrite Hrule.
    by rewrite validate_empty.
  - intros Hrule. unfold validate_cell. by rewrite Hrule.
Qed.

Lemma empty_cell_policy_witness :
  validate_cell reference.stod reference.put_double
    {[ lit "B" := scale_0_10 ]} [lit "A"; lit "B"] [lit "1"; lit "  "] 1 (∅, []) 1
  = ({[ lit "B" := py_none ]}, []) ∧
  validate_cell reference.stod reference.put_double
    {[ lit "B" := scale_0_10 ]} [lit "A"; lit "B"] [lit "  "; lit "2"] 1 (∅, []) 0
  = ({[ lit "A" := py_str [] ]}, []).
Proof.
  split.
  - destruct (empty_cell_policy reference.stod reference.put_double
                {[ lit "B" := scale_0_10 ]} [lit "A"; lit "B"]
                [lit "1"; lit "  "] 1 1 ∅ []) as (_ & Hrule & _).
    apply (Hrule scale_0_10); reflexivity.
  - destruct (empty_cell_policy reference.stod reference.put_double
                {[ lit "B" := scale_0_10 ]} [lit "A"; lit "B"]
                [lit "  "; lit "2"] 1 0 ∅ []) as (_ & _ & Hnone).
    apply Hnone. reflexivity.
Defined.

(** *** The range test of the SCALE rule *)

Lemma SFcompare_swap (x y : spec_float) :
  SFcompare y x = option_map CompOpp (SFcompare x y).
Proof.
  destruct x as [sx|sx| |sx mx ex], y as [sy|sy| |sy my ey]; cbn;
    try reflexivity; try (by destruct sx); try (by destruct sy);
    try (by destruct sx, sy).
  destruct sx, sy; try reflexivity; f_equal;
    rewrite (Z.compare_antisym ex ey);
    destruct (ex ?= ey)%Z; cbn [CompOpp]; try reflexivity;
    by rewrite (Pos.compare_cont_antisym mx my Eq).
Qed.

Lemma not_nan_spec (x : float) : is_nan x = false → Prim2SF x ≠ S754_nan.
Proof.
  unfold is_nan. rewrite FloatAxioms.eqb_spec. intros H Hx.
  rewrite Hx in H. discriminate H.
Qed.

(** Between numbers, [x < y] is the negation of [y <= x]. *)
Lemma ltb_not_leb (x y : float) :
  is_nan x = false → is_nan y = false → (x <? y)%float = negb (y <=? x)%float.
Proof.
  intros Hx%not_nan_spec Hy%not_nan_spec.
  rewrite ltb_spec, leb_spec. unfold SFltb, SFleb.
  rewrite (SFcompare_swap (Prim2SF x) (Prim2SF y)).
  destruct (SFcompare (Prim2SF x) (Prim2SF y)) as [[| |]|] eqn:E; try reflexivity.
  destruct (Prim2SF x), (Prim2SF y); try done; cbn in E; by repeat case_match.
Qed.

(** When the number read and the two bounds are numbers, the SCALE rule
    accepts the cell exactly when [min <= num <= max]. *)
Lemma scale_in_range (stod : str → option (float * nat))
    (put_double : float → str) (value : str) (rule : ValidationRule)
    (i : nat) (col : str) (errs : list ValidationError) (num : float) :
  type rule = SCALE →
  trim value ≠ [] →
  stod (trim value) = Some (num, length (trim value)) →
  is_nan num = false →
  is_nan (min_value rule) = false →
  is_nan (max_value rule) = false →
  validate_value stod put_double value rule i col errs
  = if (min_value rule <=? num)%float && (num <=? max_value rule)%float
    then (py_float num, errs)
    else (py_none, errs ++ [error_at i col value (msg_range put_double rule)]).
Proof.
  intros Hrule Hne Hstod Hnum Hmin Hmax.
  rewrite validate_scale, Hstod by done.
  rewrite bool_decide_eq_true_2 by done.
  rewrite !ltb_not_leb by done.
  by destruct (min_value rule <=? num)%float, (num <=? max_value rule)%float.
Qed.

(** C3. With [std::stod] reading a NaN from the three characters of the
    cell nan, as the C standard has it, the SCALE rule with the bounds 0
    and 10 accepts the cell: neither [num < min] nor [num > max] holds of
    a NaN, which is not between the bounds. *)
Theorem scale_accepts_nan (stod : str → option (float * nat))
    (put_double : float → str) (i : nat) (col : str)
    (errs : list ValidationError) :
  stod (lit "nan") = Some (nan, 3) →
  validate_value stod put_double (lit "nan") scale_0_10 i col errs
  = (py_float nan, errs) ∧
  ((min_value scale_0_10 <=? nan)%float && (nan <=? max_value scale_0_10)%float
   = false).
Proof.
  intros Hstod. split; [|reflexivity].
  rewrite validate_scale; [|done|differ].
  change (trim (lit "nan")) with (lit "nan"). by rewrite Hstod.
Qed.

Lemma scale_accepts_nan_witness :
  validate_value reference.stod reference.put_double (lit "nan") scale_0_10
    1 (lit "Satisfaccion") [] = (py_float nan, []).
Proof.
  apply (scale_accepts_nan reference.stod reference.put_double
           1 (lit "Satisfaccion") []).
  reflexivity.
Defined.

(** The examples of the SCALE rule with the bounds 0 and 10. *)
Example scale_examples :
  validate_value reference.stod reference.put_double (lit "7") scale_0_10
    1 (lit "Satisfaccion") [] = (py_float 7, []) ∧
  validate_value reference.stod reference.put_double (lit "11") scale_0_10
    1 (lit "Satisfaccion") []
  = (py_none, [error_at 1 (lit "Satisfaccion") (lit "11")
                 (lit "Valor fuera de rango [0, 10]")]) ∧
  validate_value reference.stod reference.put_double (lit "-1") scale_0_10
    1 (lit "Satisfaccion") []
  = (py_none, [error_at 1 (lit "Satisfaccion") (lit "-1")
                 (lit "Valor fuera de rango [0, 10]")]) ∧
  validate_value reference.stod reference.put_double (lit "7 de 10") scale_0_10
    1 (lit "Satisfaccion") []
  = (py_none, [error_at 1 (lit "Satisfaccion") (lit "7 de 10") msg_scale]) ∧
  validate_value reference.stod reference.put_double (lit "10") scale_0_10
    1 (lit "Satisfaccion") [] = (py_float 10, []).
Proof. by vm_compute. Qed.

(** ** Validator: rows *)

Section rows.
Variable stod : str → option (float * nat).
Variable put_double : float → str.
Variable rules : gmap str ValidationRule.
Variable header : list str.

Lemma typed_cell_errors i col cell :
  (typed_cell stod put_double rules i col cell).2 = [] ∨
  ∃ message, (typed_cell stod put_double rules i col cell).2
             = [error_at i col cell message].
Proof.
  unfold typed_cell. destruct (rules !! col) as [rule|]; [|by left].
  destruct (validate_appends stod put_double cell rule i col [])
    as (new & _ & -> & Hnew). done.
Qed.

Lemma validate_cell_typed row i d errs j :
  validate_cell stod put_double rules header row i (d, errs) j
  = (<[ header !!! j :=
          (typed_cell stod put_double rules i (header !!! j) (row !!! j)).1 ]> d,
     errs ++ (typed_cell stod put_double rules i (header !!! j) (row !!! j)).2).
Proof.
  unfold validate_cell, typed_cell.
  destruct (rules !! (header !!! j)) as [rule|]; [|by rewrite app_nil_r].
  destruct (validate_appends stod put_double (row !!! j) rule i
              (header !!! j) errs) as (new & -> & Hsnd & _).
  destruct (validate_value _ _ _ _ _ _ errs) as [v errs']. cbn in *.
  by subst.
Qed.

(** The column loop pushes the errors of the cells it visits, in the
    order of its visit. *)
Lemma cells_loop_errors row i js d errs :
  (foldl (validate_cell stod put_double rules header row i) (d, errs) js).2
  = errs ++ flat_map
      (λ j, (typed_cell stod put_double rules i (header !!! j) (row !!! j)).2)
      js.
Proof.
  revert d errs. induction js as [|j js IH]; intros d errs;
    cbn [foldl flat_map].
  - by rewrite app_nil_r.
  - rewrite validate_cell_typed, IH. by rewrite <- app_assoc.
Qed.

(** A loop that stores [v] under the names of the columns [js] leaves [v]
    under each of these names. *)
Lemma fill_loop_lookup (v : py_object) (js : list nat) (d : py_dict) (j : nat) :
  j ∈ js ∨ d !! (header !!! j) = Some v →
  foldl (λ d j, <[ header !!! j := v ]> d) d js !! (header !!! j) = Some v.
Proof.
  revert d. induction js as [|j' js IH]; intros d Hj; cbn.
  - destruct Hj as [Hj|Hj]; [by apply elem_of_nil in Hj|done].
  - apply IH. destruct Hj as [[->|Hj]%elem_of_cons|Hj].
    + right. apply lookup_insert_eq.
    + by left.
    + right. rewrite lookup_insert. by case_decide.
Qed.

Lemma validate_row_errors row i errs :
  (validate_row stod put_double rules header row i errs).2
  = errs ++ row_errors stod put_double rules header i row.
Proof.
  unfold validate_row, for_range, row_errors.
  rewrite Nat.sub_0_r.
  pose proof (cells_loop_errors row i
                (seq 0 (length header `min` length row)) ∅ errs) as H.
  destruct (foldl _ _ _) as [row_dict errs']. by cbn in *.
Qed.

Lemma validate_row_missing row i errs j :
  length row ≤ j < length header →
  (validate_row stod put_double rules header row i errs).1 !! (header !!! j)
  = Some py_none.
Proof.
  intros [Hlo Hhi]. unfold validate_row.
  destruct (for_range 0 _ _ _) as [row_dict errs'].
  rewrite (proj2 (Nat.ltb_lt (length row) (length header))) by lia.
  cbn [fst]. unfold for_range. apply fill_loop_lookup. left.
  apply elem_of_seq. lia.
Qed.

Lemma dict_of_row_missing row j :
  length row ≤ j < length header →
  dict_of_row header row !! (header !!! j) = Some (py_str []).
Proof.
  intros [Hlo Hhi]. unfold dict_of_row.
  rewrite (proj2 (Nat.ltb_lt (length row) (length header))) by lia.
  unfold for_range at 1. apply fill_loop_lookup. left.
  apply elem_of_seq. lia.
Qed.

Lemma cells_loop_dict row i js d errs :
  (foldl (validate_cell stod put_double rules header row i) (d, errs) js).1
  = (foldl (validate_cell stod put_double rules header row i) (d, []) js).1.
Proof.
  assert (∀ errs1 errs2,
    (foldl (validate_cell stod put_double rules header row i) (d, errs1) js).1
    = (foldl (validate_cell stod put_double rules header row i) (d, errs2) js).1)
    as H; [|apply H].
  revert d. induction js as [|j js IH]; intros d errs1 errs2; [done|].
  cbn [foldl]. rewrite !validate_cell_typed. apply IH.
Qed.

Lemma validate_row_dict row i errs :
  (validate_row stod put_double rules header row i errs).1
  = typed_row stod put_double rules header i row.
Proof.
  unfold typed_row, validate_row, for_range at 1 3.
  pose proof (cells_loop_dict row i
                (seq 0 (length header `min` length row - 0)) ∅ errs) as H.
  destruct (foldl _ (∅, errs) _) as [d1 e1].
  destruct (foldl _ (∅, []) _) as [d2 e2]. cbn in H. by subst.
Qed.

Lemma validate_rows_result rows i validated_data errs :
  validate_rows stod put_double rules header rows i validated_data errs
  = (validated_data
       ++ imap (λ k row, typed_row stod put_double rules header (i + k) row) rows,
     errs ++ table_errors stod put_double rules header rows i).
Proof.
  revert i validated_data errs.
  induction rows as [|row rest IH]; intros i validated_data errs.
  - cbn. by rewrite !app_nil_r.
  - cbn [validate_rows table_errors imap].
    pose proof (validate_row_errors row i errs) as Herr.
    pose proof (validate_row_dict row i errs) as Hdict.
    destruct (validate_row _ _ _ _ _ _ errs) as [row_dict errs'].
    cbn in Herr, Hdict. subst. rewrite IH, <- !app_assoc, Nat.add_0_r.
    cbn [app]. do 3 f_equal. apply imap_ext. intros k row' _. cbn.
    f_equal. lia.
Qed.
End rows.

(** ** Validator: the order of the errors *)

Lemma Forall_sublist {A} (P : A → Prop) (l1 l2 : list A) :
  l1 `sublist_of` l2 → Forall P l2 → Forall P l1.
Proof.
  induction 1 as [|x l1 l2 _ IH|x l1 l2 _ IH]; intros H; [done| |].
  - apply Forall_cons in H as [? ?]. constructor; auto.
  - apply Forall_cons in H as [? ?]. auto.
Qed.

Lemma StronglySorted_sublist {A} (R : relation A) (l1 l2 : list A) :
  l1 `sublist_of` l2 → StronglySorted R l2 → StronglySorted R l1.
Proof.
  induction 1 as [|x l1 l2 Hsub IH|x l1 l2 _ IH]; intros H; [done| |].
  - apply StronglySorted_cons in H as [Hx H]. constructor; [auto|].
    by apply (Forall_sublist _ l1 l2).
  - apply StronglySorted_cons in H as [_ H]. auto.
Qed.

(** When each element gives at most one output, the outputs are those of
    a sublist of the elements, one for one and in the same order. *)
Lemma flat_map_trace {A B C} (f : A → list B) (g : A → C)
    (R : B → C → Prop) (l : list A) :
  (∀ a, a ∈ l → f a = [] ∨ ∃ b, f a = [b] ∧ R b (g a)) →
  ∃ l', l' `sublist_of` map g l ∧ Forall2 R (flat_map f l) l'.
Proof.
  induction l as [|a l IH]; intros Hf.
  - exists []. split; [done|constructor].
  - destruct IH as (l' & Hsub & Hall).
    { intros a' Ha'. apply Hf. by right. }
    destruct (Hf a) as [Ha|(b & Ha & Hb)]; [by left| |]; cbn; rewrite Ha.
    + exists l'. split; [by constructor|done].
    + exists (g a :: l'). split; [by constructor|by constructor].
Qed.

Section order.
Variable stod : str → option (float * nat).
Variable put_double : float → str.
Variable rules : gmap str ValidationRule.
Variable header : list str.

Lemma seq_sorted (a n : nat) : StronglySorted lt (seq a n).
Proof.
  revert a. induction n as [|n IH]; intros a; cbn; constructor; [apply IH|].
  apply Forall_forall. intros j Hj%elem_of_seq. lia.
Qed.

Lemma cells_from_rows rows i :
  Forall (λ p, i ≤ p.1) (cells_from header rows i).
Proof.
  revert i. induction rows as [|row rest IH]; intros i; cbn; [constructor|].
  apply Forall_app. split.
  - apply Forall_forall. by intros p (j & -> & _)%list_elem_of_fmap.
  - eapply Forall_impl; [apply IH|]. cbn. lia.
Qed.

Lemma cells_from_sorted rows i :
  StronglySorted cell_lt (cells_from header rows i).
Proof.
  revert i. induction rows as [|row rest IH]; intros i; cbn; [constructor|].
  apply StronglySorted_app. split_and!; [| |apply IH].
  - intros p q (j & -> & _)%list_elem_of_fmap Hq. left.
    pose proof (cells_from_rows rest (S i)) as Hge.
    rewrite Forall_forall in Hge. specialize (Hge q Hq). cbn. lia.
  - apply (StronglySorted_fmap (λ j, (i, j)) lt cell_lt); [|apply seq_sorted].
    intros j j' Hj. right. by cbn.
Qed.

(** The errors of the rows are errors of cells taken in the order of
    the traversal. *)
Lemma table_errors_trace rows i :
  ∃ cells,
    cells `sublist_of` cells_from header rows i ∧
    Forall2 (λ e p, ∃ row,
               i ≤ p.1 ∧ rows !! (p.1 - i) = Some row ∧
               p.2 < length header `min` length row ∧
               row_index e = p.1 ∧ column e = header !!! p.2 ∧
               value e = row !!! p.2)
            (table_errors stod put_double rules header rows i) cells.
Proof.
  revert i. induction rows as [|row rest IH]; intros i.
  { exists []. split; [done|constructor]. }
  destruct (IH (S i)) as (cells2 & Hsub2 & Hall2).
  destruct (flat_map_trace
    (λ j, (typed_cell stod put_double rules i (header !!! j) (row !!! j)).2)
    (λ j, (i, j))
    (λ e p, ∃ row', i ≤ p.1 ∧ (row :: rest) !! (p.1 - i) = Some row' ∧
              p.2 < length header `min` length row' ∧
              row_index e = p.1 ∧ column e = header !!! p.2 ∧
              value e = row' !!! p.2)
    (seq 0 (length header `min` length row))) as (cells1 & Hsub1 & Hall1).
  { intros j Hj%elem_of_seq.
    destruct (typed_cell_errors stod put_double rules i
                (header !!! j) (row !!! j)) as [->|[message ->]]; [by left|].
    right. eexists. split; [done|]. exists row. cbn.
    rewrite Nat.sub_diag. split_and!; [done|done|lia|done|done|done]. }
  exists (cells1 ++ cells2). split.
  - cbn [cells_from]. by apply sublist_app.
  - cbn [table_errors]. apply Forall2_app; [done|].
    eapply Forall2_impl; [done|]. cbn.
    intros e p (row' & Hi & Hrow & Hj & He). exists row'.
    split_and!; [lia| |done|apply He..].
    replace (p.1 - i) with (S (p.1 - S i)) by lia. done.
Qed.
End order.

(** C10. The error list of [read_and_validate_csv] is the concatenation,
    data row after data row from row 1 on, of the errors of the cells at
    the columns 0 to [min (length header) (length row) - 1] in this order;
    so the errors are errors of cells that come one after the other in
    the traversal (an earlier row, or the same row and an earlier column),
    and each carries as [row_index] the 1-based index of its data row, the
    name of its column and the text of its cell. *)
Theorem errors_in_traversal_order (stod : str → option (float * nat))
    (put_double : float → str) (fs : filesystem) (filename : str)
    (schema : list (str * column_rules)) (delimiter : ascii)
    (header : list str) (data_rows : list (list str)) :
  read_csv_impl fs filename delimiter = Ok (header :: data_rows) →
  ∃ out,
    read_and_validate_csv stod put_double fs filename schema delimiter = Ok out ∧
    errors out
    = table_errors stod put_double (parse_schema schema) header data_rows 1 ∧
    ∃ cells,
      StronglySorted cell_lt cells ∧
      Forall2 (error_of_cell header data_rows) (errors out) cells.
Proof.
  intros Hread. unfold read_and_validate_csv. rewrite Hread.
  rewrite validate_rows_result. eexists. split; [done|]. cbn [errors app].
  split; [done|].
  destruct (table_errors_trace stod put_double (parse_schema schema)
              header data_rows 1) as (cells & Hsub & Hall).
  exists cells. split.
  - eapply StronglySorted_sublist; [done|]. apply cells_from_sorted.
  - eapply Forall2_impl; [done|]. intros e p (row & ? & ? & ? & ? & ? & ?).
    exists row. split_and!; done.
Qed.

Lemma errors_in_traversal_order_witness :
  ∃ out,
    read_and_validate_csv reference.stod reference.put_double survey_fs
      (lit "survey.csv") survey_schema comma = Ok out ∧
    errors out
    = [ error_at 2 (lit "Edad") (lit "x") msg_number;
        error_at 3 (lit "Satisfaccion") (lit "11")
          (lit "Valor fuera de rango [0, 10]");
        error_at 3 (lit "Acepta") (lit "Maybe") msg_option ] ∧
    ∃ cells, StronglySorted cell_lt cells ∧
             Forall2 (error_of_cell survey_header survey_rows) (errors out) cells.
Proof.
  destruct (errors_in_traversal_order reference.stod reference.put_double
              survey_fs (lit "survey.csv") survey_schema comma
              survey_header survey_rows eq_refl)
    as (out & Hout & Herrors & Hcells).
  exists out. split; [done|]. split; [|done].
  rewrite Herrors. reflexivity.
Defined.

(** C6. In a data row with fewer cells than the header, each column from
    the length of the row on is stored as [None] by
    [read_and_validate_csv] and as the empty string by [read_csv_dicts],
    whatever the rules are; and every error of the validated output is
    the error of a cell that is in its row, so none comes from a missing
    cell. *)
Theorem missing_cells_filled (stod : str → option (float * nat))
    (put_double : float → str) (fs : filesystem) (filename : str)
    (schema : list (str * column_rules)) (delimiter : ascii)
    (header : list str) (data_rows : list (list str))
    (k : nat) (row : list str) (j : nat) :
  read_csv_impl fs filename delimiter = Ok (header :: data_rows) →
  data_rows !! k = Some row →
  length row ≤ j < length header →
  (∃ out dict,
     read_and_validate_csv stod put_double fs filename schema delimiter = Ok out ∧
     data out !! k = Some dict ∧
     dict !! (header !!! j) = Some py_none ∧
     Forall (λ e, ∃ p, error_of_cell header data_rows e p) (errors out)) ∧
  (∃ records dict,
     read_csv_dicts fs filename delimiter = Ok records ∧
     records !! k = Some dict ∧
     dict !! (header !!! j) = Some (py_str [])).
Proof.
  intros Hread Hrow Hj. split.
  - unfold read_and_validate_csv. rewrite Hread, validate_rows_result.
    eexists. exists (typed_row stod put_double (parse_schema schema) header (1 + k) row).
    split_and!; [done| | |].
    + cbn [data app]. by rewrite list_lookup_imap, Hrow.
    + by apply validate_row_missing.
    + cbn [errors app].
      destruct (table_errors_trace stod put_double (parse_schema schema)
                  header data_rows 1) as (cells & _ & Hall).
      induction Hall as [|e p es ps (row' & ? & ? & ? & ? & ? & ?) _ IH];
        constructor; [|done].
      exists p, row'. split_and!; done.
  - unfold read_csv_dicts. rewrite Hread.
    eexists. exists (dict_of_row header row). split_and!; [done| |].
    + change (map (dict_of_row header) data_rows)
        with (dict_of_row header <$> data_rows).
      by rewrite list_lookup_fmap, Hrow.
    + by apply dict_of_row_missing.
Qed.

Lemma missing_cells_filled_witness :
  (∃ out dict,
     read_and_validate_csv reference.stod reference.put_double survey_fs
       (lit "survey.csv") survey_schema comma = Ok out ∧
     data out !! 1 = Some dict ∧
     dict !! lit "Acepta" = Some py_none ∧
     Forall (λ e, ∃ p, error_of_cell survey_header survey_rows e p) (errors out)) ∧
  (∃ records dict,
     read_csv_dicts survey_fs (lit "survey.csv") comma = Ok records ∧
     records !! 1 = Some dict ∧
     dict !! lit "Acepta" = Some (py_str [])).
Proof.
  apply (missing_cells_filled reference.stod reference.put_double survey_fs
           (lit "survey.csv") survey_schema comma survey_header survey_rows
           1 [lit "x"] 2).
  - reflexivity.
  - reflexivity.
  - cbn. lia.
Defined.

(** The rows of the survey export, validated. *)
Example survey_validated :
  read_and_validate_csv reference.stod reference.put_double survey_fs
    (lit "survey.csv") survey_schema comma
  = Ok {| data :=
            [ {[ lit "Edad" := py_float 31; lit "Satisfaccion" := py_float 7;
                 lit "Acepta" := py_str (lit "Yes") ]};
              {[ lit "Edad" := py_none; lit "Satisfaccion" := py_none;
                 lit "Acepta" := py_none ]};
              {[ lit "Edad" := py_float 40; lit "Satisfaccion" := py_none;
                 lit "Acepta" := py_none ]} ];
          errors :=
            [ error_at 2 (lit "Edad") (lit "x") msg_number;
              error_at 3 (lit "Satisfaccion") (lit "11")
                (lit "Valor fuera de rango [0, 10]");
              error_at 3 (lit "Acepta") (lit "Maybe") msg_option ] |}.
Proof. by vm_compute. Qed.

(** * Further properties *)

(** ** Tokenizer: quoted fields, and what the cells are made of *)

Section tokenizer_more.
Variable delimiter : ascii.

(** Inside quotes an escaped cell and its closing quote give the cell
    back, provided no quote follows the closing one. *)
Lemma loop_escape s rest cell row :
  head rest ≠ Some dquote →
  parse_csv_loop delimiter (escape s ++ dquote :: rest) true cell row
  = parse_csv_loop delimiter rest false (cell ++ s) row.
Proof.
  intros Hrest. revert cell. induction s as [|c s IH]; intros cell.
  - cbn [escape app]. rewrite loop_toggle by auto. by rewrite app_nil_r.
  - cbn [escape]. destruct (Ascii.eqb c dquote) eqn:Ec.
    + apply Ascii.eqb_eq in Ec. subst. cbn [app].
      rewrite loop_escaped, IH. by rewrite <- app_assoc.
    + apply Ascii.eqb_neq in Ec. cbn [app].
      rewrite loop_literal by auto. rewrite IH. by rewrite <- app_assoc.
Qed.

Lemma loop_quoted s rest cell row :
  head rest ≠ Some dquote →
  parse_csv_loop delimiter (quoted s ++ rest) false cell row
  = parse_csv_loop delimiter rest false (cell ++ s) row.
Proof.
  intros Hrest. unfold quoted. cbn [app]. rewrite loop_toggle by auto.
  rewrite <- app_assoc. cbn [app negb]. by apply loop_escape.
Qed.

Lemma loop_join_quoted cells row :
  delimiter ≠ dquote →
  cells ≠ [] →
  parse_csv_loop delimiter (join delimiter (map quoted cells)) false [] row
  = row ++ cells.
Proof.
  intros Hd Hne. revert row. induction cells as [|cell cells IH]; intros row; [done|].
  destruct cells as [|cell' cells].
  - cbn [map join]. rewrite <- (app_nil_r (quoted cell)).
    by rewrite loop_quoted.
  - cbn [map join]. cbn [map join] in IH.
    rewrite loop_quoted by (cbn; congruence).
    rewrite loop_delimiter by done. rewrite IH by done.
    by rewrite <- app_assoc.
Qed.

Lemma join_cons cell cells :
  cells ≠ [] →
  join delimiter (cell :: cells) = cell ++ delimiter :: join delimiter cells.
Proof. by destruct cells. Qed.

Lemma join_last_two row a b :
  join delimiter (row ++ [a; b]) = join delimiter (row ++ [a ++ delimiter :: b]).
Proof.
  induction row as [|r row IH]; [done|].
  cbn [app]. rewrite !join_cons by (by destruct row). by rewrite IH.
Qed.

(** On a line without quotes, the cells and the delimiters between them
    are the line. *)
Lemma loop_join_back line cell row :
  dquote ∉ line →
  join delimiter (parse_csv_loop delimiter line false cell row)
  = join delimiter (row ++ [cell ++ line]).
Proof.
  revert cell row. induction line as [|c line IH]; intros cell row Hq.
  - cbn. by rewrite app_nil_r.
  - apply not_elem_of_cons in Hq as [Hc Hq].
    destruct (decide (c = delimiter)) as [->|Hcd].
    + rewrite loop_delimiter by done. rewrite IH by done.
      rewrite <- app_assoc. cbn [app]. apply join_last_two.
    + rewrite loop_literal by auto. rewrite IH by done.
      by rewrite <- app_assoc.
Qed.

(** The characters of the cells come from the line. *)
Lemma loop_chars line q cell row x :
  x ∈ concat (parse_csv_loop delimiter line q cell row) →
  x ∈ line ∨ x ∈ cell ∨ x ∈ concat row.
Proof.
  revert q cell row.
  assert (∀ cell row, x ∈ concat (row ++ [cell]) → x ∈ cell ∨ x ∈ concat row)
    as Hend.
  { intros cell row. rewrite concat_app, elem_of_app. cbn.
    rewrite app_nil_r. tauto. }
  induction line as [|c|c c' rest IH1 IH2] using line_ind2; intros q cell row.
  - cbn. intros H%Hend. tauto.
  - cbn [parse_csv_loop]. destruct (Ascii.eqb c dquote).
    { intros H%Hend. tauto. }
    destruct (Ascii.eqb c delimiter && negb q); intros H%Hend.
    + destruct H as [H|H%Hend]; [by apply elem_of_nil in H|tauto].
    + destruct H as [[H|H%list_elem_of_singleton]%elem_of_app|H];
        [tauto|subst; left; by left|tauto].
  - rewrite loop_cons2. destruct (Ascii.eqb c dquote) eqn:Ec.
    + apply Ascii.eqb_eq in Ec. subst.
      destruct (q && Ascii.eqb c' dquote).
      * intros [H|[[H|H%list_elem_of_singleton]%elem_of_app|H]]%IH1.
        -- left. by do 2 right.
        -- tauto.
        -- subst. left. by left.
        -- tauto.
      * intros [H|H]%IH2; [left; by right|tauto].
    + destruct (Ascii.eqb c delimiter && negb q).
      * intros [H|[H|H%Hend]]%IH2;
          [left; by right|by apply elem_of_nil in H|tauto].
      * intros [H|[[H|H%list_elem_of_singleton]%elem_of_app|H]]%IH2.
        -- left. by right.
        -- tauto.
        -- subst. left. by left.
        -- tauto.
Qed.
End tokenizer_more.

(** X1. For a delimiter other than the double quote, a row of at least
    one cell written the way CSV writers quote (each cell between double
    quotes, its own double quotes doubled, the delimiter between the
    cells) is tokenized back to the cells, whatever they hold: delimiters,
    quotes, spaces or nothing. *)
Theorem quoted_roundtrip (delimiter : ascii) (cells : list str) :
  delimiter ≠ dquote →
  cells ≠ [] →
  parse_csv_line (join delimiter (map quoted cells)) delimiter = cells.
Proof. intros Hd Hne. unfold parse_csv_line. by rewrite loop_join_quoted. Qed.

Lemma quoted_roundtrip_witness :
  parse_csv_line
    (join comma (map quoted [lit "a,b"; []; [dquote]; lit " x " ++ [dquote; comma]]))
    comma
  = [lit "a,b"; []; [dquote]; lit " x " ++ [dquote; comma]].
Proof. apply quoted_roundtrip; discriminate. Defined.

(** X2. On a line without a double quote nothing is lost and nothing is
    trimmed: the cells joined by the delimiter are the line again. *)
Theorem cells_join_to_line (delimiter : ascii) (line : str) :
  dquote ∉ line →
  join delimiter (parse_csv_line line delimiter) = line.
Proof.
  intros Hq. unfold parse_csv_line. by rewrite loop_join_back.
Qed.

Lemma cells_join_to_line_witness :
  join comma (parse_csv_line (lit " a ,,b c, ") comma) = lit " a ,,b c, ".
Proof.
  apply cells_join_to_line. apply (bool_decide_unpack _). vm_compute. exact I.
Defined.

Lemma getlines_chars content acc line c :
  line ∈ getlines content acc → c ∈ line →
  c ∈ acc ∨ (c ∈ content ∧ c ≠ LF).
Proof.
  revert acc. induction content as [|x content IH]; intros acc Hline Hc.
  - cbn in Hline. destruct acc as [|a acc]; [by apply elem_of_nil in Hline|].
    apply list_elem_of_singleton in Hline. subst. by left.
  - cbn [getlines] in Hline. destruct (Ascii.eqb x LF) eqn:Ex.
    + apply elem_of_cons in Hline as [->|Hline]; [by left|].
      destruct (IH [] Hline Hc) as [H|[H1 H2]]; [by apply elem_of_nil in H|].
      right. split; [by right|done].
    + apply Ascii.eqb_neq in Ex.
      destruct (IH _ Hline Hc) as [[H|H%list_elem_of_singleton]%elem_of_app|[H1 H2]].
      * by left.
      * subst. right. split; [by left|done].
      * right. split; [by right|done].
Qed.

Lemma strip_cr_chars line c : c ∈ strip_cr line → c ∈ line.
Proof.
  unfold strip_cr. destruct (last line) as [x|]; [|done].
  destruct (Ascii.eqb x CR); [|done].
  intros H%list_elem_of_In. apply list_elem_of_In.
  revert H. induction line as [|a [|b line] IH]; [done|done|].
  cbn [removelast]. intros [->|H]; [by left|right; by apply IH].
Qed.

(** X3. Every character of every cell that [read_csv_impl] returns is a
    character of the file, and none is a line feed: a quoted field never
    runs over the end of its line. *)
Theorem cells_hold_file_characters (fs : filesystem) (filename : str)
    (delimiter : ascii) (content : str) (rows : list (list str)) :
  fs filename = Some content →
  read_csv_impl fs filename delimiter = Ok rows →
  ∀ row cell c, row ∈ rows → cell ∈ row → c ∈ cell → c ∈ content ∧ c ≠ LF.
Proof.
  intros Hfile Hread row cell c Hrow Hcell Hc.
  unfold read_csv_impl in Hread. rewrite Hfile in Hread.
  injection Hread as <-. rewrite read_lines_flat_map in Hrow. cbn [app] in Hrow.
  apply list_elem_of_In, in_flat_map in Hrow as (line & Hline & Hrow).
  apply list_elem_of_In in Hline.
  unfold row_of_line in Hrow.
  destruct (strip_cr line) as [|a stripped] eqn:Es; [done|].
  destruct Hrow as [<-|[]].
  assert (c ∈ concat (parse_csv_line (a :: stripped) delimiter)) as Hin.
  { apply list_elem_of_In, in_concat. exists cell.
    split; by apply list_elem_of_In. }
  apply loop_chars in Hin as [Hin|[Hin|Hin]];
    [|by apply elem_of_nil in Hin..].
  rewrite <- Es in Hin. apply strip_cr_chars in Hin.
  destruct (getlines_chars content [] line c Hline Hin) as [H|H]; [|done].
  by apply elem_of_nil in H.
Qed.

Lemma cells_hold_file_characters_witness :
  "b"%char ∈ unlines [CR; LF] [lit "a,b,c"; []; lit "d"] ∧ "b"%char ≠ LF.
Proof.
  apply (cells_hold_file_characters two_files (lit "crlf.csv") comma
           (unlines [CR; LF] [lit "a,b,c"; []; lit "d"])
           [[lit "a"; lit "b"; lit "c"]; [lit "d"]] eq_refl eq_refl
           [lit "a"; lit "b"; lit "c"] (lit "b") "b"%char);
    apply (bool_decide_unpack _); vm_compute; exact I.
Defined.

(** ** Trimming *)

(** X4. On a string that is not empty the backward loop of [trim] stays
    inside the string, and the result is the string without the white
    space at its two ends: the input is white space, the result, white
    space, and the result neither starts nor ends with white space. White
    space inside the result is kept. *)
Theorem trim_strips_outer_space (s : str) :
  s ≠ [] →
  (0 ≤ trim_end s < Z.of_nat (length s))%Z ∧
  ∃ pre ws, s = pre ++ trim s ++ ws ∧ spaces pre ∧ spaces ws ∧
            no_outer_space (trim s).
Proof.
  intros Hne. split; [by apply trim_end_in_range|].
  apply trim_removes_outer_space.
Qed.

Lemma trim_strips_outer_space_witness :
  (0 ≤ trim_end (lit "  a b ") < 6)%Z ∧
  ∃ pre ws, lit "  a b " = pre ++ trim (lit "  a b ") ++ ws ∧
            spaces pre ∧ spaces ws ∧ no_outer_space (trim (lit "  a b ")).
Proof. apply (trim_strips_outer_space (lit "  a b ")). discriminate. Defined.

(** X5. [trim] does not depend on the white space around a text: for a
    text that is not empty and neither starts nor ends with white space,
    any white space before and after it is removed and the text comes
    back unchanged; so trimming twice is trimming once. *)
Theorem trim_keeps_core :
  (∀ pre core ws,
     spaces pre → spaces ws → core ≠ [] → no_outer_space core →
     trim (pre ++ core ++ ws) = core) ∧
  (∀ s, trim s ≠ [] → trim (trim s) = trim s).
Proof.
  split.
  - intros pre core ws Hpre Hws _ Hcore. by apply trim_core.
  - intros s _.
    destruct (trim_removes_outer_space s) as (pre & ws & _ & _ & _ & Hcore).
    rewrite <- (app_nil_r (trim s)) at 1.
    apply (trim_core [] (trim s) []); [constructor|constructor|done].
Qed.

Lemma trim_keeps_core_witness :
  trim (lit " " ++ [CR] ++ lit "Muy bueno" ++ lit "  ") = lit "Muy bueno" ∧
  trim (trim (lit " x y ")) = trim (lit " x y ").
Proof.
  destruct trim_keeps_core as [Hcore Hidem]. split.
  - apply (Hcore (lit " " ++ [CR]) (lit "Muy bueno") (lit "  "));
      [apply (bool_decide_unpack _); vm_compute; exact I
      |apply (bool_decide_unpack _); vm_compute; exact I
      |discriminate|].
    split; intros c [= <-]; reflexivity.
  - apply Hidem. differ.
Defined.

(** ** Schema *)

Lemma schema_fold_other (name : str) (schema : list (str * column_rules))
    (rules : gmap str ValidationRule) :
  name ∉ schema.*1 →
  foldl (λ rules item, <[ item.1 := parse_rule item.2 ]> rules) rules schema
    !! name = rules !! name.
Proof.
  revert rules. induction schema as [|[key cr] schema IH]; intros rules Hname;
    [done|].
  cbn in Hname. apply not_elem_of_cons in Hname as [Hkey Hname].
  cbn [foldl]. rewrite IH by done. by apply lookup_insert_ne.
Qed.

(** X6. The rules compiled from a schema: a column name that the schema
    does not hold has no rule, and a name it holds has the rule of the
    last item with that name. *)
Theorem schema_lookup (schema : list (str * column_rules)) (name : str) :
  (name ∉ schema.*1 → parse_schema schema !! name = None) ∧
  (∀ before cr after,
     schema = before ++ (name, cr) :: after →
     name ∉ after.*1 →
     parse_schema schema !! name = Some (parse_rule cr)).
Proof.
  unfold parse_schema. split.
  - intros Hname. by rewrite schema_fold_other.
  - intros before cr after -> Hafter.
    rewrite foldl_app. cbn [foldl]. rewrite schema_fold_other by done.
    apply lookup_insert_eq.
Qed.

Lemma schema_lookup_witness :
  parse_schema survey_schema !! lit "Comentario" = None ∧
  parse_schema
    ((lit "Edad",
      {| cr_type := Some (lit "text"); cr_min := None; cr_max := None;
         cr_options := None |}) :: survey_schema) !! lit "Edad"
  = Some number_rule.
Proof.
  split.
  - apply schema_lookup. apply (bool_decide_unpack _). vm_compute. exact I.
  - destruct (schema_lookup
      ((lit "Edad",
        {| cr_type := Some (lit "text"); cr_min := None; cr_max := None;
           cr_options := None |}) :: survey_schema) (lit "Edad")) as [_ H].
    apply (H [(lit "Edad",
               {| cr_type := Some (lit "text"); cr_min := None; cr_max := None;
                  cr_options := None |})]
             {| cr_type := Some (lit "number"); cr_min := None; cr_max := None;
                cr_options := None |}
             (tail survey_schema)); [reflexivity|].
    apply (bool_decide_unpack _). vm_compute. exact I.
Defined.

Lemma options_fold (options : list str) (set : gset str) :
  foldl (λ set opt, {[ trim opt ]} ∪ set) set options
  = list_to_set (trim <$> options) ∪ set.
Proof.
  revert set. induction options as [|opt options IH]; intros set; cbn.
  - by rewrite (left_id_L ∅ (∪)).
  - rewrite IH. rewrite (comm_L (∪) {[trim opt]} (list_to_set (trim <$> options))).
    by rewrite (assoc_L (∪)).
Qed.

Lemma parse_rule_options (cr : column_rules) (options : list str) :
  cr_options cr = Some options →
  valid_options (parse_rule cr) = list_to_set (trim <$> options).
Proof.
  intros H. unfold parse_rule. cbn. rewrite H, options_fold.
  by rewrite (right_id_L ∅ (∪)).
Qed.

(** X7. A column whose description has no type, or a type that in lower
    case is none of number, scale and single, is compiled to a TEXT rule,
    and under it no cell is ever an error: the cell becomes [None] when it
    is empty once trimmed and its trimmed text otherwise. *)
Theorem untyped_column_never_fails (stod : str → option (float * nat))
    (put_double : float → str) (cr : column_rules) :
  (∀ type_str,
     cr_type cr = Some type_str →
     map tolower type_str ≠ lit "number" ∧
     map tolower type_str ≠ lit "scale" ∧
     map tolower type_str ≠ lit "single") →
  type (parse_rule cr) = TEXT ∧
  ∀ value i col errs,
    validate_value stod put_double value (parse_rule cr) i col errs
    = (match trim value with [] => py_none | t => py_str t end, errs).
Proof.
  intros Htype.
  assert (type (parse_rule cr) = TEXT) as Hrule.
  { unfold parse_rule. cbn. destruct (cr_type cr) as [type_str|]; [|done].
    destruct (Htype type_str eq_refl) as (H1 & H2 & H3).
    unfold parse_field_type, str_eqb. by rewrite !bool_decide_eq_false_2. }
  split; [done|]. intros value i col errs.
  destruct (trim value) as [|c t] eqn:Et.
  - by apply validate_empty.
  - rewrite validate_text by (done || by rewrite Et). by rewrite Et.
Qed.

Lemma untyped_column_never_fails_witness :
  validate_value reference.stod reference.put_double (lit " 3.5x ")
    (parse_rule {| cr_type := Some (lit "Numero"); cr_min := None;
                   cr_max := None; cr_options := Some [lit "a"] |})
    1 (lit "Edad") []
  = (py_str (lit "3.5x"), []).
Proof.
  refine (proj2 (untyped_column_never_fails reference.stod reference.put_double
            {| cr_type := Some (lit "Numero"); cr_min := None;
               cr_max := None; cr_options := Some [lit "a"] |} _)
            (lit " 3.5x ") 1 (lit "Edad") []).
  intros type_str [= <-]. split_and!; differ.
Defined.

(** X8. The options of a single-choice column are matched without regard
    to the white space around them, in the schema and in the cell: when
    the column is described with the type single (in any case of the
    letters) and a list of options that is not empty, a cell that is not
    empty once trimmed is accepted, as its trimmed text, exactly when its
    trimmed text is the trimmed text of one of the options; with no
    options, or none listed, every such cell is accepted. *)
Theorem options_match_trimmed (stod : str → option (float * nat))
    (put_double : float → str) (cr : column_rules) (type_str : str)
    (value : str) (i : nat) (col : str) (errs : list ValidationError) :
  cr_type cr = Some type_str →
  map tolower type_str = lit "single" →
  trim value ≠ [] →
  validate_value stod put_double value (parse_rule cr) i col errs
  = match cr_options cr with
    | Some (opt :: options) =>
        if bool_decide (trim value ∈ trim <$> opt :: options)
        then (py_str (trim value), errs)
        else (py_none, errs ++ [error_at i col value msg_option])
    | _ => (py_str (trim value), errs)
    end.
Proof.
  intros Htype Hsingle Hne.
  assert (type (parse_rule cr) = SINGLE) as Hrule.
  { unfold parse_rule. cbn. rewrite Htype.
    unfold parse_field_type. by rewrite Hsingle. }
  rewrite validate_single by done.
  destruct (cr_options cr) as [[|opt options]|] eqn:Hopt.
  - rewrite (parse_rule_options cr []) by done.
    rewrite bool_decide_eq_false_2; [done|]. by intros [? _].
  - rewrite (parse_rule_options cr (opt :: options)) by done.
    destruct (decide (trim value ∈ trim <$> opt :: options)) as [Hin|Hin].
    + rewrite (bool_decide_eq_true_2 _ Hin).
      rewrite bool_decide_eq_false_2; [done|]. intros [_ H]. apply H.
      by apply elem_of_list_to_set.
    + rewrite (bool_decide_eq_false_2 _ Hin).
      rewrite bool_decide_eq_true_2; [done|]. split.
      * intros Hempty.
        assert (trim opt ∈ (∅ : gset str)) as H; [|by apply elem_of_empty in H].
        rewrite <- Hempty. apply elem_of_list_to_set. by left.
      * by rewrite elem_of_list_to_set.
  - assert (valid_options (parse_rule cr) = ∅) as ->.
    { unfold parse_rule. cbn. by rewrite Hopt. }
    rewrite bool_decide_eq_false_2; [done|]. by intros [? _].
Qed.

Lemma options_match_trimmed_witness :
  validate_value reference.stod reference.put_double (lit "No  ")
    (parse_rule {| cr_type := Some (lit "SINGLE"); cr_min := None;
                   cr_max := None; cr_options := Some [lit " Yes"; lit "No "] |})
    3 (lit "Acepta") []
  = (py_str (lit "No"), []).
Proof.
  apply (options_match_trimmed reference.stod reference.put_double
           {| cr_type := Some (lit "SINGLE"); cr_min := None;
              cr_max := None; cr_options := Some [lit " Yes"; lit "No "] |}
           (lit "SINGLE") (lit "No  ") 3 (lit "Acepta") []).
  - reflexivity.
  - reflexivity.
  - differ.
Defined.

(** ** The dicts of the rows *)

Section dicts.
Variable header : list str.

(** A loop that stores [f j] under the name of column [j], for [j] in
    [js]. *)
Abbreviation store_loop f :=
  (foldl (λ (d : py_dict) (j : nat), <[ header !!! j := f j ]> d)).

Lemma store_loop_dom (f : nat → py_object) (js : list nat) (d : py_dict) :
  dom (store_loop f d js) = dom d ∪ list_to_set ((λ j, header !!! j) <$> js).
Proof.
  revert d. induction js as [|j js IH]; intros d; cbn [foldl fmap list_fmap].
  - cbn. by rewrite (right_id_L ∅ (∪)).
  - rewrite IH, dom_insert_L. cbn [list_to_set].
    rewrite (comm_L (∪) {[header !!! j]} (dom d)).
    by rewrite (assoc_L (∪)).
Qed.

Lemma store_loop_other (f : nat → py_object) (js : list nat) (d : py_dict)
    (name : str) :
  (∀ j, j ∈ js → header !!! j ≠ name) →
  store_loop f d js !! name = d !! name.
Proof.
  revert d. induction js as [|j js IH]; intros d Hjs; [done|].
  cbn [foldl]. rewrite IH.
  - apply lookup_insert_ne. apply Hjs. by left.
  - intros j' Hj'. apply Hjs. by right.
Qed.

Lemma header_names_differ (j j' : nat) :
  NoDup header → j < length header → j' < length header →
  header !!! j = header !!! j' → j = j'.
Proof.
  intros Hnd Hj Hj' Heq.
  apply (NoDup_lookup header j j' (header !!! j)); [done| |].
  - by apply list_lookup_lookup_total_lt.
  - rewrite Heq. by apply list_lookup_lookup_total_lt.
Qed.

Lemma store_loop_lookup (f : nat → py_object) (js : list nat) (d : py_dict)
    (j : nat) :
  NoDup header → NoDup js → Forall (λ j, j < length header) js → j ∈ js →
  store_loop f d js !! (header !!! j) = Some (f j).
Proof.
  intros Hnd. revert d. induction js as [|j' js IH]; intros d Hjs Hlt Hj.
  - by apply elem_of_nil in Hj.
  - apply NoDup_cons in Hjs as [Hj' Hjs]. apply Forall_cons in Hlt as [Hlt' Hlt].
    cbn [foldl]. apply elem_of_cons in Hj as [->|Hj]; [|by apply IH].
    rewrite store_loop_other; [apply lookup_insert_eq|].
    intros j Hj Heq. rewrite Forall_forall in Hlt.
    apply header_names_differ in Heq; [by subst|done|by apply Hlt|done].
Qed.

(** The names under which a row is stored are the names of the header. *)
Lemma row_names (row_length : nat) :
  list_to_set ((λ j, header !!! j) <$> seq 0 (length header `min` row_length))
  ∪ (if row_length <? length header
     then list_to_set ((λ j, header !!! j)
                         <$> seq row_length (length header - row_length))
     else ∅)
  = (list_to_set header : gset str).
Proof.
  apply set_eq. intros name.
  rewrite elem_of_union, !elem_of_list_to_set, list_elem_of_fmap.
  split.
  - intros [(j & -> & Hj%elem_of_seq)|H].
    + apply list_elem_of_lookup_total_2. lia.
    + destruct (row_length <? length header) eqn:E; [|by apply elem_of_empty in H].
      apply elem_of_list_to_set, list_elem_of_fmap in H as (j & -> & Hj%elem_of_seq).
      apply list_elem_of_lookup_total_2. lia.
  - intros (j & Hj)%list_elem_of_lookup.
    pose proof (lookup_lt_Some _ _ _ Hj) as Hlt.
    apply list_lookup_total_correct in Hj as <-.
    destruct (decide (j < row_length)) as [Hr|Hr].
    + left. exists j. split; [done|]. apply elem_of_seq. lia.
    + right. rewrite (proj2 (Nat.ltb_lt row_length (length header))) by lia.
      apply elem_of_list_to_set, list_elem_of_fmap. exists j.
      split; [done|]. apply elem_of_seq. lia.
Qed.

Lemma dict_of_row_dom (row : list str) :
  dom (dict_of_row header row) = list_to_set header.
Proof.
  unfold dict_of_row, for_range. rewrite Nat.sub_0_r.
  rewrite <- (row_names (length row)).
  destruct (length row <? length header).
  - rewrite !store_loop_dom, dom_empty_L. by rewrite (left_id_L ∅ (∪)).
  - rewrite store_loop_dom, dom_empty_L.
    by rewrite (left_id_L ∅ (∪)), (right_id_L ∅ (∪)).
Qed.

Lemma dict_of_row_present (row : list str) (j : nat) :
  NoDup header → j < length header `min` length row →
  dict_of_row header row !! (header !!! j) = Some (py_str (row !!! j)).
Proof.
  intros Hnd Hj. unfold dict_of_row, for_range. rewrite Nat.sub_0_r.
  assert (store_loop (λ j, py_str (row !!! j)) ∅
            (seq 0 (length header `min` length row)) !! (header !!! j)
          = Some (py_str (row !!! j))) as Hfirst.
  { apply store_loop_lookup; [done|apply NoDup_seq| |by apply elem_of_seq; lia].
    apply Forall_forall. intros j' Hj'%elem_of_seq. lia. }
  destruct (length row <? length header); [|done].
  rewrite store_loop_other; [done|].
  intros j' Hj'%elem_of_seq Heq.
  apply header_names_differ in Heq; [lia|done|lia|lia].
Qed.
End dicts.

Section typed_rows.
Variable stod : str → option (float * nat).
Variable put_double : float → str.
Variable rules : gmap str ValidationRule.
Variable header : list str.

Lemma cells_loop_store row i js d errs :
  (foldl (validate_cell stod put_double rules header row i) (d, errs) js).1
  = foldl (λ (d : py_dict) (j : nat),
             <[ header !!! j :=
                  (typed_cell stod put_double rules i
                     (header !!! j) (row !!! j)).1 ]> d) d js.
Proof.
  revert d errs. induction js as [|j js IH]; intros d errs; [done|].
  cbn [foldl]. by rewrite validate_cell_typed, IH.
Qed.

Lemma typed_row_unfold row i :
  typed_row stod put_double rules header i row
  = let d :=
      foldl (λ (d : py_dict) (j : nat),
               <[ header !!! j :=
                    (typed_cell stod put_double rules i
                       (header !!! j) (row !!! j)).1 ]> d) ∅
            (seq 0 (length header `min` length row)) in
    if length row <? length header
    then foldl (λ (d : py_dict) (j : nat), <[ header !!! j := py_none ]> d) d
               (seq (length row) (length header - length row))
    else d.
Proof.
  unfold typed_row, validate_row, for_range. rewrite Nat.sub_0_r.
  pose proof (cells_loop_store row i
                (seq 0 (length header `min` length row)) ∅ []) as H.
  destruct (foldl _ (∅, []) _) as [d errs]. cbn in H. by subst.
Qed.

Lemma typed_row_dom row i :
  dom (typed_row stod put_double rules header i row) = list_to_set header.
Proof.
  rewrite typed_row_unfold. cbn zeta.
  rewrite <- (row_names header (length row)).
  destruct (length row <? length header).
  - rewrite !store_loop_dom, dom_empty_L. by rewrite (left_id_L ∅ (∪)).
  - rewrite store_loop_dom, dom_empty_L.
    by rewrite (left_id_L ∅ (∪)), (right_id_L ∅ (∪)).
Qed.

Lemma typed_row_present row i j :
  NoDup header → j < length header `min` length row →
  typed_row stod put_double rules header i row !! (header !!! j)
  = Some (typed_cell stod put_double rules i (header !!! j) (row !!! j)).1.
Proof.
  intros Hnd Hj. rewrite typed_row_unfold. cbn zeta.
  assert (∀ f : nat → py_object,
    foldl (λ (d : py_dict) (j : nat), <[ header !!! j := f j ]> d) ∅
          (seq 0 (length header `min` length row))
      !! (header !!! j) = Some (f j)) as Hfirst.
  { intros f.
    apply store_loop_lookup; [done|apply NoDup_seq| |by apply elem_of_seq; lia].
    apply Forall_forall. intros j' Hj'%elem_of_seq. lia. }
  destruct (length row <? length header); [|apply Hfirst].
  rewrite store_loop_other; [apply Hfirst|].
  intros j' Hj'%elem_of_seq Heq.
  apply header_names_differ in Heq; [lia|done|lia|lia].
Qed.

Lemma cells_from_length rows i :
  length (cells_from header rows i)
  = sum_list ((λ row, length header `min` length row) <$> rows).
Proof.
  revert i. induction rows as [|row rows IH]; intros i; [done|].
  cbn. by rewrite length_app, length_map, length_seq, IH.
Qed.

Lemma table_errors_none rows i :
  (∀ col, col ∈ header → rules !! col = None) →
  table_errors stod put_double rules header rows i = [].
Proof.
  intros Hnone. revert i. induction rows as [|row rows IH]; intros i; [done|].
  cbn [table_errors]. rewrite IH, app_nil_r. unfold row_errors.
  assert (∀ js, Forall (λ j, j < length header) js →
    flat_map (λ j, (typed_cell stod put_double rules i
                      (header !!! j) (row !!! j)).2) js = []) as Hjs.
  { induction 1 as [|j js Hj _ IHjs]; [done|]. cbn [flat_map].
    rewrite IHjs, app_nil_r. unfold typed_cell.
    rewrite Hnone; [done|]. by apply list_elem_of_lookup_total_2. }
  apply Hjs. apply Forall_forall. intros j Hj%elem_of_seq. lia.
Qed.
End typed_rows.

(** ** The three entry points *)

(** X9. When the file cannot be opened, each of the three entry points
    throws the error of [read_csv_impl], whose text ends with the file
    name; nothing of the schema is looked at and no partial result is
    returned. *)
Theorem unreadable_file_throws (stod : str → option (float * nat))
    (put_double : float → str) (fs : filesystem) (filename : str)
    (schema : list (str * column_rules)) (delimiter : ascii) :
  fs filename = None →
  read_csv fs filename delimiter
  = Throw (lit "No se pudo abrir el archivo CSV: " ++ filename) ∧
  read_csv_dicts fs filename delimiter
  = Throw (lit "No se pudo abrir el archivo CSV: " ++ filename) ∧
  read_and_validate_csv stod put_double fs filename schema delimiter
  = Throw (lit "No se pudo abrir el archivo CSV: " ++ filename).
Proof.
  intros Hfile.
  unfold read_csv, read_csv_dicts, read_and_validate_csv, read_csv_impl.
  by rewrite Hfile.
Qed.

Lemma unreadable_file_throws_witness :
  read_csv_dicts survey_fs (lit "otro.csv") comma
  = Throw (lit "No se pudo abrir el archivo CSV: otro.csv") ∧
  read_and_validate_csv reference.stod reference.put_double survey_fs
    (lit "otro.csv") survey_schema comma
  = Throw (lit "No se pudo abrir el archivo CSV: otro.csv").
Proof.
  destruct (unreadable_file_throws reference.stod reference.put_double survey_fs
              (lit "otro.csv") survey_schema comma eq_refl) as (_ & H1 & H2).
  by split.
Defined.

Lemma strip_cr_empty line : strip_cr line = [] ↔ line = [] ∨ line = [CR].
Proof.
  split.
  - destruct line as [|c line] using rev_ind; [by left|]. intros H.
    unfold strip_cr in H. rewrite last_snoc in H.
    destruct (Ascii.eqb c CR) eqn:Ec.
    + apply Ascii.eqb_eq in Ec. subst. rewrite removelast_last in H.
      subst. by right.
    + by destruct line.
  - by intros [->| ->].
Qed.

(** X10. A file gives no row at all exactly when each of its lines is
    empty or one carriage return (so for the empty file); then
    [read_csv_dicts] returns no dict and [read_and_validate_csv] returns
    no dict and no error, whatever the schema. *)
Theorem blank_file_is_empty (stod : str → option (float * nat))
    (put_double : float → str) (fs : filesystem) (filename : str)
    (schema : list (str * column_rules)) (delimiter : ascii) (content : str) :
  fs filename = Some content →
  (read_csv fs filename delimiter = Ok [] ↔
   Forall (λ line, line = [] ∨ line = [CR]) (getlines content [])) ∧
  (read_csv fs filename delimiter = Ok [] →
   read_csv_dicts fs filename delimiter = Ok [] ∧
   read_and_validate_csv stod put_double fs filename schema delimiter
   = Ok {| data := []; errors := [] |}).
Proof.
  intros Hfile. split.
  - unfold read_csv, read_csv_impl. rewrite Hfile, read_lines_flat_map.
    cbn [app]. split.
    + intros [= H]. induction (getlines content []) as [|line lines IH];
        [constructor|].
      cbn [flat_map] in H. apply app_eq_nil in H as [Hline Hlines].
      constructor; [|by apply IH]. apply strip_cr_empty.
      unfold row_of_line in Hline. by destruct (strip_cr line).
    + intros H. f_equal. induction H as [|line lines Hline _ IH]; [done|].
      cbn [flat_map]. rewrite IH, app_nil_r. unfold row_of_line.
      by rewrite (proj2 (strip_cr_empty line) Hline).
  - unfold read_csv, read_csv_dicts, read_and_validate_csv. by intros ->.
Qed.

Lemma blank_file_is_empty_witness :
  read_csv_dicts (λ _, Some [LF; CR; LF; CR]) (lit "vacio.csv") comma = Ok [] ∧
  read_and_validate_csv reference.stod reference.put_double
    (λ _, Some [LF; CR; LF; CR]) (lit "vacio.csv") survey_schema comma
  = Ok {| data := []; errors := [] |}.
Proof.
  destruct (blank_file_is_empty reference.stod reference.put_double
              (λ _, Some [LF; CR; LF; CR]) (lit "vacio.csv") survey_schema comma
              [LF; CR; LF; CR] eq_refl) as [Hblank Hempty].
  apply Hempty. apply Hblank.
  apply (bool_decide_unpack _). vm_compute. exact I.
Defined.

(** X11. Once the header is read, the two dict-building entry points
    return one dict for each data row, in the order of the rows: no row
    is dropped, whatever its length and its errors; and there are no more
    errors than cells paired with a column. *)
Theorem one_dict_per_data_row (stod : str → option (float * nat))
    (put_double : float → str) (fs : filesystem) (filename : str)
    (schema : list (str * column_rules)) (delimiter : ascii)
    (header : list str) (data_rows : list (list str)) :
  read_csv_impl fs filename delimiter = Ok (header :: data_rows) →
  ∃ records out,
    read_csv_dicts fs filename delimiter = Ok records ∧
    read_and_validate_csv stod put_double fs filename schema delimiter = Ok out ∧
    records = dict_of_row header <$> data_rows ∧
    data out
    = imap (λ k row, typed_row stod put_double (parse_schema schema)
                       header (1 + k) row) data_rows ∧
    length records = length data_rows ∧
    length (data out) = length data_rows ∧
    length (errors out)
    ≤ sum_list ((λ row, length header `min` length row) <$> data_rows).
Proof.
  intros Hread. unfold read_csv_dicts, read_and_validate_csv.
  rewrite Hread, validate_rows_result. do 2 eexists.
  split_and!; [done|done|done|done|..]; cbn [data errors app].
  - apply length_map.
  - apply length_imap.
  - destruct (table_errors_trace stod put_double (parse_schema schema)
                header data_rows 1) as (cells & Hsub & Hall).
    rewrite (Forall2_length _ _ _ Hall).
    rewrite <- (cells_from_length header data_rows 1).
    by apply sublist_length.
Qed.

Lemma one_dict_per_data_row_witness :
  ∃ records out,
    read_csv_dicts survey_fs (lit "survey.csv") comma = Ok records ∧
    read_and_validate_csv reference.stod reference.put_double survey_fs
      (lit "survey.csv") survey_schema comma = Ok out ∧
    length records = 3 ∧ length (data out) = 3 ∧ length (errors out) ≤ 7.
Proof.
  destruct (one_dict_per_data_row reference.stod reference.put_double survey_fs
              (lit "survey.csv") survey_schema comma survey_header survey_rows
              eq_refl)
    as (records & out & H1 & H2 & _ & _ & H3 & H4 & H5).
  exists records, out. by split_and!.
Defined.

(** X12. Each dict of [read_csv_dicts] has the names of the header as
    its keys, no more and no fewer, whatever the length of the row: cells
    beyond the header are dropped. When the names of the header differ
    from one another, the cell at a column that the row has is stored
    under the name of the column as it was read, not trimmed. *)
Theorem record_fields (fs : filesystem) (filename : str) (delimiter : ascii)
    (header : list str) (data_rows : list (list str))
    (k : nat) (row : list str) :
  read_csv_impl fs filename delimiter = Ok (header :: data_rows) →
  data_rows !! k = Some row →
  ∃ records dict,
    read_csv_dicts fs filename delimiter = Ok records ∧
    records !! k = Some dict ∧
    dom dict = list_to_set header ∧
    (NoDup header →
     ∀ j, j < length header `min` length row →
          dict !! (header !!! j) = Some (py_str (row !!! j))).
Proof.
  intros Hread Hrow. unfold read_csv_dicts. rewrite Hread.
  eexists. exists (dict_of_row header row). split_and!; [done| | |].
  - change (map (dict_of_row header) data_rows)
      with (dict_of_row header <$> data_rows).
    by rewrite list_lookup_fmap, Hrow.
  - apply dict_of_row_dom.
  - intros Hnd j Hj. by apply dict_of_row_present.
Qed.

Lemma record_fields_witness :
  ∃ records dict,
    read_csv_dicts survey_fs (lit "survey.csv") comma = Ok records ∧
    records !! 2 = Some dict ∧
    dom dict = list_to_set survey_header ∧
    dict !! lit "Satisfaccion" = Some (py_str (lit "11")).
Proof.
  destruct (record_fields survey_fs (lit "survey.csv") comma survey_header
              survey_rows 2 [lit "40"; lit "11"; lit "Maybe"] eq_refl eq_refl)
    as (records & dict & H1 & H2 & H3 & H4).
  exists records, dict. split_and!; [done|done|done|].
  assert (NoDup survey_header) as Hnd
    by (apply (bool_decide_unpack _); vm_compute; exact I).
  apply (H4 Hnd 1). cbn. lia.
Defined.

(** X13. Each dict of [read_and_validate_csv] has the names of the
    header as its keys, no more and no fewer. When the names of the header
    differ from one another, the cell at a column that the row has is
    stored under the name of the column as its typed value: the value of
    [validate_value] under the rule of the column, or its trimmed text
    when the column has no rule. *)
Theorem validated_fields (stod : str → option (float * nat))
    (put_double : float → str) (fs : filesystem) (filename : str)
    (schema : list (str * column_rules)) (delimiter : ascii)
    (header : list str) (data_rows : list (list str))
    (k : nat) (row : list str) :
  read_csv_impl fs filename delimiter = Ok (header :: data_rows) →
  data_rows !! k = Some row →
  ∃ out dict,
    read_and_validate_csv stod put_double fs filename schema delimiter = Ok out ∧
    data out !! k = Some dict ∧
    dom dict = list_to_set header ∧
    (NoDup header →
     ∀ j, j < length header `min` length row →
          dict !! (header !!! j)
          = Some match parse_schema schema !! (header !!! j) with
                 | Some rule =>
                     (validate_value stod put_double (row !!! j) rule (1 + k)
                        (header !!! j) []).1
                 | None => py_str (trim (row !!! j))
                 end).
Proof.
  intros Hread Hrow. unfold read_and_validate_csv.
  rewrite Hread, validate_rows_result. eexists.
  exists (typed_row stod put_double (parse_schema schema) header (1 + k) row).
  split_and!; [done| | |].
  - cbn [data app]. by rewrite list_lookup_imap, Hrow.
  - apply typed_row_dom.
  - intros Hnd j Hj. rewrite typed_row_present by done.
    unfold typed_cell. by destruct (parse_schema schema !! (header !!! j)).
Qed.

Lemma validated_fields_witness :
  ∃ out dict,
    read_and_validate_csv reference.stod reference.put_double survey_fs
      (lit "survey.csv") survey_schema comma = Ok out ∧
    data out !! 0 = Some dict ∧
    dom dict = list_to_set survey_header ∧
    dict !! lit "Satisfaccion" = Some (py_float 7).
Proof.
  destruct (validated_fields reference.stod reference.put_double survey_fs
              (lit "survey.csv") survey_schema comma survey_header
              survey_rows 0 [lit "31"; lit "7"; lit "Yes"] eq_refl eq_refl)
    as (out & dict & H1 & H2 & H3 & H4).
  exists out, dict. split_and!; [done|done|done|].
  assert (NoDup survey_header) as Hnd
    by (apply (bool_decide_unpack _); vm_compute; exact I).
  etrans; [apply (H4 Hnd 1); cbn; lia|]. reflexivity.
Defined.

(** X14. When no name of the header is in the schema, validation records
    no error, and (the names of the header differing from one another)
    every cell at a column that the row has is returned as its trimmed
    text. *)
Theorem columns_without_rules_pass (stod : str → option (float * nat))
    (put_double : float → str) (fs : filesystem) (filename : str)
    (schema : list (str * column_rules)) (delimiter : ascii)
    (header : list str) (data_rows : list (list str)) :
  read_csv_impl fs filename delimiter = Ok (header :: data_rows) →
  (∀ col, col ∈ header → col ∉ schema.*1) →
  ∃ out,
    read_and_validate_csv stod put_double fs filename schema delimiter = Ok out ∧
    errors out = [] ∧
    (NoDup header →
     ∀ k row j, data_rows !! k = Some row →
                j < length header `min` length row →
                ∃ dict, data out !! k = Some dict ∧
                        dict !! (header !!! j) = Some (py_str (trim (row !!! j)))).
Proof.
  intros Hread Hcols.
  assert (∀ col, col ∈ header → parse_schema schema !! col = None) as Hnone.
  { intros col Hcol. unfold parse_schema. rewrite schema_fold_other; [done|].
    by apply Hcols. }
  unfold read_and_validate_csv. rewrite Hread, validate_rows_result.
  eexists. split_and!; [done| |].
  - cbn [errors app]. by apply table_errors_none.
  - intros Hnd k row j Hrow Hj. cbn [data app].
    exists (typed_row stod put_double (parse_schema schema) header (1 + k) row).
    split; [by rewrite list_lookup_imap, Hrow|].
    rewrite typed_row_present by done. unfold typed_cell.
    rewrite Hnone; [done|]. apply list_elem_of_lookup_total_2. lia.
Qed.

Lemma columns_without_rules_pass_witness :
  ∃ out,
    read_and_validate_csv reference.stod reference.put_double survey_fs
      (lit "survey.csv") [] comma = Ok out ∧
    errors out = [] ∧
    ∃ dict, data out !! 2 = Some dict ∧
            dict !! lit "Acepta" = Some (py_str (lit "Maybe")).
Proof.
  destruct (columns_without_rules_pass reference.stod reference.put_double
              survey_fs (lit "survey.csv") [] comma survey_header survey_rows
              eq_refl) as (out & H1 & H2 & H3).
  { intros col _. apply not_elem_of_nil. }
  exists out. split_and!; [done|done|].
  assert (NoDup survey_header) as Hnd
    by (apply (bool_decide_unpack _); vm_compute; exact I).
  apply (H3 Hnd 2 [lit "40"; lit "11"; lit "Maybe"] 2);
    [reflexivity|cbn; lia].
Defined.

(** ** One cell, whatever the rule *)

(** X15. [validate_value] leaves the errors it received in place and
    appends at most one, which names the row, the column and the cell as
    it was read; the value it returns is [None] exactly when the cell is
    empty once trimmed or an error was appended, and no error is ever
    appended for a cell that is empty once trimmed. *)
Theorem none_exactly_on_empty_or_error (stod : str → option (float * nat))
    (put_double : float → str) (value : str) (rule : ValidationRule)
    (i : nat) (col : str) (errs : list ValidationError) :
  ∃ v new,
    validate_value stod put_double value rule i col errs = (v, errs ++ new) ∧
    (new = [] ∨ ∃ message, new = [error_at i col value message]) ∧
    (v = py_none ↔ trim value = [] ∨ new ≠ []) ∧
    (new ≠ [] → trim value ≠ []).
Proof.
  destruct (decide (trim value = [])) as [He|Hne].
  { exists py_none, []. rewrite validate_empty, app_nil_r by done.
    split_and!; [done|by left|by split; [left|]|done]. }
  assert (∀ v, v ≠ py_none →
    ∃ v' new, (v, errs) = (v', errs ++ new) ∧
      (new = [] ∨ ∃ message, new = [error_at i col value message]) ∧
      (v' = py_none ↔ trim value = [] ∨ new ≠ []) ∧
      (new ≠ [] → trim value ≠ [])) as Hok.
  { intros v Hv. exists v, []. rewrite app_nil_r.
    split_and!; [done|by left| |done].
    split; [done|]. by intros [?|?]. }
  assert (∀ message,
    ∃ v' new, (py_none, errs ++ [error_at i col value message]) = (v', errs ++ new) ∧
      (new = [] ∨ ∃ message, new = [error_at i col value message]) ∧
      (v' = py_none ↔ trim value = [] ∨ new ≠ []) ∧
      (new ≠ [] → trim value ≠ [])) as Hbad.
  { intros message. exists py_none, [error_at i col value message].
    split_and!; [done|right; by eexists| |done].
    split; [by right|done]. }
  destruct (type rule) eqn:Hrule.
  - rewrite validate_text by done. by apply Hok.
  - rewrite validate_number by done.
    destruct (stod (trim value)) as [[num pos]|]; [case_bool_decide|];
      auto.
  - rewrite validate_scale by done.
    destruct (stod (trim value)) as [[num pos]|];
      [case_bool_decide; [case_match|]|]; auto.
  - rewrite validate_single by done. case_bool_decide; auto.
Qed.

(** X16. A column described with the type scale (in any case of the
    letters) has the bounds of its description, 0 and 10 where they are
    not given. When the whole trimmed cell is read as a number, and the
    number and the bounds are not NaN, the cell is accepted exactly when
    [lo <= num <= hi], both bounds included; otherwise it becomes [None]
    with one error whose message holds the two bounds as the stream
    writes them. *)
Theorem scale_column_bounds (stod : str → option (float * nat))
    (put_double : float → str) (cr : column_rules) (type_str : str)
    (value : str) (i : nat) (col : str) (errs : list ValidationError)
    (num : float) :
  cr_type cr = Some type_str →
  map tolower type_str = lit "scale" →
  trim value ≠ [] →
  stod (trim value) = Some (num, length (trim value)) →
  is_nan num = false →
  is_nan (default 0%float (cr_min cr)) = false →
  is_nan (default 10%float (cr_max cr)) = false →
  validate_value stod put_double value (parse_rule cr) i col errs
  = if (default 0 (cr_min cr) <=? num)%float
       && (num <=? default 10 (cr_max cr))%float
    then (py_float num, errs)
    else (py_none,
          errs ++ [error_at i col value
                     (lit "Valor fuera de rango ["
                        ++ put_double (default 0%float (cr_min cr)) ++ lit ", "
                        ++ put_double (default 10%float (cr_max cr)) ++ lit "]")]).
Proof.
  intros Htype Hscale Hne Hstod Hnum Hlo Hhi.
  assert (type (parse_rule cr) = SCALE) as Hrule.
  { unfold parse_rule. cbn. rewrite Htype.
    unfold parse_field_type. by rewrite Hscale. }
  by rewrite (scale_in_range stod put_double value (parse_rule cr) i col errs num).
Qed.

Lemma scale_column_bounds_witness :
  validate_value reference.stod reference.put_double (lit " 10 ")
    (parse_rule {| cr_type := Some (lit "Scale"); cr_min := None;
                   cr_max := None; cr_options := None |})
    1 (lit "Satisfaccion") [] = (py_float 10, []) ∧
  validate_value reference.stod reference.put_double (lit "2.5")
    (parse_rule {| cr_type := Some (lit "SCALE"); cr_min := Some 3%float;
                   cr_max := None; cr_options := None |})
    1 (lit "Satisfaccion") []
  = (py_none, [error_at 1 (lit "Satisfaccion") (lit "2.5")
                 (lit "Valor fuera de rango [3, 10]")]).
Proof.
  split.
  - apply (scale_column_bounds reference.stod reference.put_double
             {| cr_type := Some (lit "Scale"); cr_min := None;
                cr_max := None; cr_options := None |}
             (lit "Scale") (lit " 10 ") 1 (lit "Satisfaccion") [] 10%float);
      first [reflexivity|differ].
  - apply (scale_column_bounds reference.stod reference.put_double
             {| cr_type := Some (lit "SCALE"); cr_min := Some 3%float;
                cr_max := None; cr_options := None |}
             (lit "SCALE") (lit "2.5") 1 (lit "Satisfaccion") [] 2.5%float);
      first [reflexivity|differ].
Defined.

(** X17. The kind of the rule decides the type of the value: under a
    NUMBER or SCALE rule a cell becomes [None] or a float, never a string;
    under a TEXT or SINGLE rule it becomes [None] or its trimmed text,
    never a float. *)
Theorem value_type_follows_rule (stod : str → option (float * nat))
    (put_double : float → str) (value : str) (rule : ValidationRule)
    (i : nat) (col : str) (errs : list ValidationError) :
  let v := (validate_value stod put_double value rule i col errs).1 in
  match type rule with
  | NUMBER | SCALE =>
      v = py_none ∨ ∃ num pos, stod (trim value) = Some (num, pos) ∧ v = py_float num
  | TEXT | SINGLE => v = py_none ∨ v = py_str (trim value)
  end.
Proof.
  cbn zeta. destruct (decide (trim value = [])) as [He|Hne].
  { rewrite validate_empty by done. destruct (type rule); by left. }
  destruct (type rule) eqn:Hrule.
  - rewrite validate_text by done. by right.
  - rewrite validate_number by done.
    destruct (stod (trim value)) as [[num pos]|]; [case_bool_decide|];
      cbn; eauto.
  - rewrite validate_scale by done.
    destruct (stod (trim value)) as [[num pos]|];
      [case_bool_decide; [case_match|]|]; cbn; eauto.
  - rewrite validate_single by done. case_bool_decide; cbn; eauto.
Qed.

(** ** Header names that come more than once *)

Section last_column.
Variable header : list str.

Lemma store_loop_last (f : nat → py_object) (before after : list nat)
    (d : py_dict) (j : nat) :
  (∀ j', j' ∈ after → header !!! j' ≠ header !!! j) →
  foldl (λ (d : py_dict) (j : nat), <[ header !!! j := f j ]> d) d
        (before ++ j :: after) !! (header !!! j)
  = Some (f j).
Proof.
  intros Hafter. rewrite foldl_app. cbn [foldl].
  rewrite store_loop_other by done. apply lookup_insert_eq.
Qed.

Lemma seq_split (a n j : nat) :
  a ≤ j < a + n → seq a n = seq a (j - a) ++ j :: seq (S j) (a + n - S j).
Proof.
  intros Hj. replace n with ((j - a) + S (a + n - S j)) at 1 by lia.
  rewrite seq_app. cbn [seq]. by replace (a + (j - a)) with j by lia.
Qed.

(** What two loops leave under the name of column [j] when no later
    column has this name: the first loop stores [f j'] for the columns
    below [n], the second [fill] for the columns from [n] on. *)
Lemma two_loops_last (f : nat → py_object) (fill : py_object) (n j : nat) :
  j < length header →
  (∀ j', j < j' < length header → header !!! j' ≠ header !!! j) →
  (let d := foldl (λ (d : py_dict) (j : nat), <[ header !!! j := f j ]> d) ∅
                  (seq 0 (length header `min` n)) in
   if n <? length header
   then foldl (λ (d : py_dict) (j : nat), <[ header !!! j := fill ]> d) d
              (seq n (length header - n))
   else d) !! (header !!! j)
  = Some (if j <? n then f j else fill).
Proof.
  intros Hj Hlast. cbn zeta.
  destruct (j <? n) eqn:Ejn.
  - apply Nat.ltb_lt in Ejn.
    assert (foldl (λ (d : py_dict) (j : nat), <[ header !!! j := f j ]> d) ∅
                  (seq 0 (length header `min` n)) !! (header !!! j)
            = Some (f j)) as Hfirst.
    { rewrite (seq_split 0 (length header `min` n) j) by lia.
      apply store_loop_last. intros j' Hj'%elem_of_seq. apply Hlast. lia. }
    destruct (n <? length header) eqn:En; [|done].
    apply Nat.ltb_lt in En. rewrite store_loop_other; [done|].
    intros j' Hj'%elem_of_seq. apply Hlast. lia.
  - apply Nat.ltb_ge in Ejn.
    rewrite (proj2 (Nat.ltb_lt n (length header))) by lia.
    rewrite (seq_split n (length header - n) j) by lia.
    apply (store_loop_last (λ _, fill)).
    intros j' Hj'%elem_of_seq. apply Hlast. lia.
Qed.
End last_column.

(** X18. When a name comes more than once in the header, the last column
    with the name decides what the dict holds under it: for a column [j]
    of the header that no later column shares its name with,
    [read_csv_dicts] holds the cell of the row at [j] as it was read (the
    empty string when the row has no such cell) and
    [read_and_validate_csv] holds its typed value ([None] when the row has
    no such cell). *)
Theorem last_column_of_a_name_wins (stod : str → option (float * nat))
    (put_double : float → str) (fs : filesystem) (filename : str)
    (schema : list (str * column_rules)) (delimiter : ascii)
    (header : list str) (data_rows : list (list str))
    (k : nat) (row : list str) (j : nat) :
  read_csv_impl fs filename delimiter = Ok (header :: data_rows) →
  data_rows !! k = Some row →
  j < length header →
  (∀ j', j < j' < length header → header !!! j' ≠ header !!! j) →
  (∃ records dict,
     read_csv_dicts fs filename delimiter = Ok records ∧
     records !! k = Some dict ∧
     dict !! (header !!! j)
     = Some (if j <? length row then py_str (row !!! j) else py_str [])) ∧
  (∃ out dict,
     read_and_validate_csv stod put_double fs filename schema delimiter = Ok out ∧
     data out !! k = Some dict ∧
     dict !! (header !!! j)
     = Some (if j <? length row
             then (typed_cell stod put_double (parse_schema schema) (1 + k)
                     (header !!! j) (row !!! j)).1
             else py_none)).
Proof.
  intros Hread Hrow Hj Hlast. split.
  - unfold read_csv_dicts. rewrite Hread.
    eexists. exists (dict_of_row header row). split_and!; [done| |].
    + change (map (dict_of_row header) data_rows)
        with (dict_of_row header <$> data_rows).
      by rewrite list_lookup_fmap, Hrow.
    + unfold dict_of_row, for_range. rewrite Nat.sub_0_r.
      by apply (two_loops_last header (λ j, py_str (row !!! j)) (py_str [])).
  - unfold read_and_validate_csv. rewrite Hread, validate_rows_result.
    eexists.
    exists (typed_row stod put_double (parse_schema schema) header (1 + k) row).
    split_and!; [done| |].
    + cbn [data app]. by rewrite list_lookup_imap, Hrow.
    + rewrite typed_row_unfold.
      by apply (two_loops_last header
                  (λ j, (typed_cell stod put_double (parse_schema schema) (1 + k)
                           (header !!! j) (row !!! j)).1) py_none).
Qed.

Lemma last_column_of_a_name_wins_witness :
  (∃ records dict,
     read_csv_dicts (λ _, Some (lit "A,B,A" ++ [LF] ++ lit "1,2,3" ++ [LF]))
       (lit "dup.csv") comma = Ok records ∧
     records !! 0 = Some dict ∧
     dict !! lit "A" = Some (py_str (lit "3"))) ∧
  (∃ out dict,
     read_and_validate_csv reference.stod reference.put_double
       (λ _, Some (lit "A,B,A" ++ [LF] ++ lit "1,2,3" ++ [LF]))
       (lit "dup.csv") [] comma = Ok out ∧
     data out !! 0 = Some dict ∧
     dict !! lit "A" = Some (py_str (lit "3"))).
Proof.
  apply (last_column_of_a_name_wins reference.stod reference.put_double
           (λ _, Some (lit "A,B,A" ++ [LF] ++ lit "1,2,3" ++ [LF]))
           (lit "dup.csv") [] comma [lit "A"; lit "B"; lit "A"]
           [[lit "1"; lit "2"; lit "3"]] 0 [lit "1"; lit "2"; lit "3"] 2).
  - reflexivity.
  - reflexivity.
  - cbn. lia.
  - cbn. lia.
Defined.
